(** * expanding_kernel: the radially stretched Gaussian high-pass filter

    A shallow embedding of [get_residual] (src/expanding_kernel.py).

    The function is a straight-line numpy/scipy program.  Its own code
    consists of array copies, elementwise arithmetic on the two axis arrays
    ([**], [+], [*], [-] with numpy broadcasting) and five calls into two
    scipy collaborators, [interpolate.interp2d] and [gaussian_filter].

    - Floating-point numbers are an abstract carrier [F] with the operations
      the source applies to them; IEEE facts are stated as hypotheses where a
      result needs them.
    - A 1-D array is a [list F]; a 2-D array is its shape together with its
      row-major buffer.
    - A raised exception is the [Raise] case of [result].
    - The two collaborators are parameters of the model.

    The first part gives the value semantics, the second part the same
    program over a store of array objects, where copies, aliasing and
    in-place updates by the collaborators are visible. *)

From Stdlib Require Import QArith Qabs Qround.
From stdpp Require Import gmap strings list.

Open Scope Z_scope.

(** ** Exceptions and results *)

(** A Python exception, identified by the name of its class. *)
Inductive exn : Type :=
| Exception (cls : string).

(** numpy raises [ValueError] when operands cannot be broadcast together. *)
Definition ValueError : exn := Exception "ValueError".
Definition TypeError : exn := Exception "TypeError".

#[global] Instance exn_eq_dec : EqDecision exn.
Proof. solve_decision. Defined.

Inductive result (A : Type) : Type :=
| Ok (a : A)
| Raise (e : exn).
Arguments Ok {A} a.
Arguments Raise {A} e.

#[global] Instance result_ret : MRet result := fun A a => Ok a.
#[global] Instance result_bind : MBind result := fun A B f m =>
  match m with
  | Ok a => f a
  | Raise e => Raise e
  end.
#[global] Instance result_fmap : FMap result := fun A B f m =>
  match m with
  | Ok a => Ok (f a)
  | Raise e => Raise e
  end.

(** ** numpy broadcasting of one dimension *)

(** Two extents are compatible when they are equal or one of them is 1; the
    broadcast extent is then the other one. *)
Definition bdim (n m : nat) : option nat :=
  if decide (n = m) then Some n
  else if decide (n = 1%nat) then Some m
  else if decide (m = 1%nat) then Some n
  else None.

(** ** Arrays *)

(** A 2-D array: [nrows] rows of [ncols] entries, stored row by row. *)
Record array2 (F : Type) : Type := Array2 {
  nrows : nat;
  ncols : nat;
  flat : list F
}.
Arguments Array2 {F} nrows ncols flat.
Arguments nrows {F} a.
Arguments ncols {F} a.
Arguments flat {F} a.

Definition shape {F} (a : array2 F) : nat * nat := (nrows a, ncols a).

(** An array object is 1-D or 2-D; [np_shape] is its [.shape]. *)
Inductive ndarray (F : Type) : Type :=
| Arr1 (v : list F)
| Arr2 (a : array2 F).
Arguments Arr1 {F} v.
Arguments Arr2 {F} a.

Definition np_shape {F} (o : ndarray F) : list nat :=
  match o with
  | Arr1 v => [length v]
  | Arr2 a => [nrows a; ncols a]
  end.

(** [ndarray.copy()]: a new array with the same contents.  On values it is
    the identity; the store model below allocates a new object. *)
Definition copy {A : Type} (a : A) : A := a.

(** A 1-D array seen at extent [n]: itself when it has that extent,
    otherwise (extent 1) its single entry repeated. *)
Definition broadcast_to {F} (n : nat) (v : list F) : list F :=
  if decide (length v = n) then v else v ≫= replicate n.

(** Elementwise binary operation on two 1-D arrays. *)
Definition np_binop {F} (op : F → F → F) (a b : list F) : result (list F) :=
  match bdim (length a) (length b) with
  | Some n => Ok (zip_with op (broadcast_to n a) (broadcast_to n b))
  | None => Raise ValueError
  end.

(** A 2-D array seen at shape [(r, c)]. *)
Definition broadcast_to2 {F} (r c : nat) (a : array2 F) : list F :=
  let cols := if decide (ncols a = c) then flat a
              else flat a ≫= replicate c in
  if decide (nrows a = r) then cols else mjoin (replicate r cols).

(** Elementwise binary operation on two 2-D arrays. *)
Definition np_binop2 {F} (op : F → F → F) (a b : array2 F)
    : result (array2 F) :=
  match bdim (nrows a) (nrows b), bdim (ncols a) (ncols b) with
  | Some r, Some c =>
      Ok (Array2 r c (zip_with op (broadcast_to2 r c a) (broadcast_to2 r c b)))
  | _, _ => Raise ValueError
  end.

(** ** The interfaces the filter is written against *)

(** The float carrier with the operations of the source: [+], [-], [*],
    [**], and the literals [2] and [0.5]. *)
Class Float (F : Type) : Type := {
  fadd : F → F → F;
  fsub : F → F → F;
  fmul : F → F → F;
  fpow : F → F → F;
  two : F;
  half : F
}.

(** An interpolant object: called on two 1-D query arrays it returns a 2-D
    array or raises. *)
Definition interpolant (F : Type) : Type :=
  list F → list F → result (array2 F).

(** The collaborators: [interpolate.interp2d(x, y, z, kind=...)] and
    [gaussian_filter(input, sigma=...)]. *)
Class Collaborators (F : Type) : Type := {
  interp2d : list F → list F → array2 F → string → result (interpolant F);
  gaussian_filter : array2 F → Z → result (array2 F)
}.

(** ** The filter, on values *)

Section Filter.
Context {F : Type} {FL : Float F} {CO : Collaborators F}.

(** [a ** e] for an array [a] and a scalar exponent [e]. *)
Definition np_power (a : list F) (e : F) : list F :=
  (λ v, fpow v e) <$> a.
Definition np_add : list F → list F → result (list F) := np_binop fadd.
Definition np_multiply : list F → list F → result (list F) := np_binop fmul.
Definition np_subtract : array2 F → array2 F → result (array2 F) :=
  np_binop2 fsub.

(** One entry of [(X**2 + Y**2)**0.5]. *)
Definition radius (xv yv : F) : F :=
  fpow (fadd (fpow xv two) (fpow yv two)) half.

(** Line 39: [R = (X**2 + Y**2)**0.5]. *)
Definition radial_grid (X Y : list F) : result (list F) :=
  s ← np_add (np_power X two) (np_power Y two);
  mret (np_power s half).

(** Lines 42-43: [x = X * (R**(gamma))], and the same for [Y]. *)
Definition stretched (A R : list F) (gamma : F) : result (list F) :=
  np_multiply A (np_power R gamma).

Definition get_residual (data : array2 F) (xaxis yaxis : list F)
    (gamma : F) (w0 : Z) (interp_kind : string) (return_background : bool)
    : result (array2 F) :=
  let input_data := copy data in
  let X := copy xaxis in
  let Y := copy yaxis in
  (* Define the radial grid *)
  R ← radial_grid X Y;
  (* Stretch the original grid by desired radial stretch *)
  x ← stretched X R gamma;
  y ← stretched Y R gamma;
  (* Prepare interp function of input data on original grid *)
  func1 ← interp2d X Y input_data interp_kind;
  (* Interpolate input data onto radially stretched grid *)
  stretched_data ← func1 x y;
  (* Perform convolution on warped data and subtract result *)
  background ← gaussian_filter stretched_data w0;
  highpass_residual ← np_subtract stretched_data background;
  if return_background then
    (* Prepare interp function of background on radially stretched grid *)
    func2 ← interp2d x y background interp_kind;
    output_data ← func2 X Y;
    mret output_data
  else
    (* Prepare interp function of residual data on radially stretched grid *)
    func2 ← interp2d x y highpass_residual interp_kind;
    output_data ← func2 X Y;
    mret output_data.

(** The plain fixed-width filter as the specification words it: the
    Gaussian filter applied directly to the original map gives the
    background, the map minus the background, entry by entry, gives the
    residual, and the flag selects one of the two.  No grid and no
    interpolation take part.  Kept for comparison with [get_residual] at
    [gamma = 0]. *)
Definition spec_fixed_width_highpass (data : array2 F) (w0 : Z)
    (return_background : bool) : result (array2 F) :=
  background ← gaussian_filter data w0;
  mret (if return_background then background
        else Array2 (nrows data) (ncols data)
               (zip_with fsub (flat data) (flat background))).

(** A map sampled on the grid of the axes [X], [Y]: [len(Y)] rows of
    [len(X)] entries. *)
Definition on_grid (X Y : list F) (z : array2 F) : Prop :=
  shape z = (length Y, length X) ∧
  length (flat z) = (length Y * length X)%nat.

(** An interpolant that reproduces its samples: built on [(X, Y)] from a
    map on that grid and evaluated at [(X, Y)] it returns the map (the
    resampling round trip has no error). *)
Definition interp2d_exact_on (X Y : list F) (k : string) : Prop :=
  ∀ z, on_grid X Y z → ∃ f, interp2d X Y z k = Ok f ∧ f X Y = Ok z.

(** For the width [w], what the Gaussian filter returns for a map on the
    grid is a map on the grid. *)
Definition gaussian_filter_keeps_grid (X Y : list F) (w : Z) : Prop :=
  ∀ a b, on_grid X Y a → gaussian_filter a w = Ok b → on_grid X Y b.

(** What the filter expects of its collaborators.  For the kind [k] and
    grids of [ny] by [nx] samples, the interpolant builder accepts every
    value array of shape [(ny, nx)], and the interpolant it returns evaluates
    on any two query arrays to an array of shape [(len(qy), len(qx))]. *)
Definition interp2d_accepts (k : string) (ny nx : nat) : Prop :=
  ∀ xs ys z, length xs = nx → length ys = ny → shape z = (ny, nx) →
    ∃ f, interp2d xs ys z k = Ok f ∧
      ∀ qx qy, ∃ out, f qx qy = Ok out ∧ shape out = (length qy, length qx).

(** For the width [w], the Gaussian filter returns an array of the shape
    of its input. *)
Definition gaussian_filter_accepts (w : Z) : Prop :=
  ∀ a, ∃ b, gaussian_filter a w = Ok b ∧ shape b = shape a.

(** The stages a failing call can fail at. *)
Definition raises_at (data : array2 F) (X Y : list F) (gamma : F) (w0 : Z)
    (interp_kind : string) (return_background : bool) (e : exn) : Prop :=
  radial_grid X Y = Raise e ∨
  ∃ R x y,
    radial_grid X Y = Ok R ∧
    stretched X R gamma = Ok x ∧ stretched Y R gamma = Ok y ∧
    (interp2d X Y data interp_kind = Raise e ∨
     ∃ func1, interp2d X Y data interp_kind = Ok func1 ∧
     (func1 x y = Raise e ∨
      ∃ stretched_data, func1 x y = Ok stretched_data ∧
      (gaussian_filter stretched_data w0 = Raise e ∨
       ∃ background, gaussian_filter stretched_data w0 = Ok background ∧
       (np_subtract stretched_data background = Raise e ∨
        ∃ highpass_residual,
          np_subtract stretched_data background = Ok highpass_residual ∧
          let selected :=
            if return_background then background else highpass_residual in
          (interp2d x y selected interp_kind = Raise e ∨
           ∃ func2, interp2d x y selected interp_kind = Ok func2 ∧
                    func2 X Y = Raise e))))).


(** The radial grid as the specification words it: the two axes are
    broadcast to a full grid ("xy" meshgrid, x along columns, y along rows)
    and [sqrt(X² + Y²)] is taken at every grid point.  Kept for comparison
    with [radial_grid]. *)
Definition spec_radial_grid (X Y : list F) : array2 F :=
  Array2 (length Y) (length X)
    (Y ≫= λ yv, (λ xv, radius xv yv) <$> X).

End Filter.

(** ** The filter, on a store of array objects *)

(** Python variables hold references.  The store maps the identity of each
    live array object to its current contents; [.copy()] and every arithmetic
    operation allocate a new object, and a collaborator receives references,
    so it can update its arguments in place. *)
Definition loc : Type := positive.

Section Store.
Context {F : Type}.

Local Abbreviation store := (gmap loc (ndarray F)).

(** A computation: from a store to the store it leaves behind together with
    a value or a raised exception. *)
Definition M (A : Type) : Type := store → store * result A.

Definition st_ret {A} (a : A) : M A := λ h, (h, Ok a).
Definition st_bind {A B} (m : M A) (k : A → M B) : M B := λ h,
  match m h with
  | (h', Ok a) => k a h'
  | (h', Raise e) => (h', Raise e)
  end.
Definition st_lift {A} (r : result A) : M A := λ h, (h, r).

(** Allocation of a new object. *)
Definition new (o : ndarray F) : M loc := λ h,
  let l := fresh (dom h) in (<[l := o]> h, Ok l).

(** Reading the object behind a reference.  The axes are used as 1-D arrays
    and the maps as 2-D arrays, as the docstring has them; a reference to
    an object of the other kind, or to no object, is outside the model and
    shows as a [TypeError]. *)
Definition load (l : loc) : M (ndarray F) := λ h,
  match h !! l with
  | Some o => (h, Ok o)
  | None => (h, Raise TypeError)
  end.
Definition load1 (l : loc) : M (list F) := λ h,
  match h !! l with
  | Some (Arr1 v) => (h, Ok v)
  | _ => (h, Raise TypeError)
  end.
Definition load2 (l : loc) : M (array2 F) := λ h,
  match h !! l with
  | Some (Arr2 a) => (h, Ok a)
  | _ => (h, Raise TypeError)
  end.
End Store.
Arguments M F A : clear implicits.

Notation "x ⇐ m ; k" := (st_bind m (λ x, k))
  (at level 20, m at level 100, k at level 200, only parsing).

(** The collaborators as they are called: with references.  [interp_obj] is
    the type of interpolant objects, [captured] the arrays such an object
    holds on to. *)
Class StoreCollaborators (F : Type) : Type := {
  interp_obj : Type;
  interp2d_st : loc → loc → loc → string → M F interp_obj;
  interp_call : interp_obj → loc → loc → M F loc;
  gaussian_filter_st : loc → Z → M F loc;
  captured : interp_obj → gset loc
}.

Section StoreFilter.
Context {F : Type} {FL : Float F} {SC : StoreCollaborators F}.

Definition np_copy_st (l : loc) : M F loc :=
  o ⇐ load l; new o.
Definition np_power_st (l : loc) (e : F) : M F loc :=
  a ⇐ load1 l; new (Arr1 (np_power a e)).
Definition np_add_st (l1 l2 : loc) : M F loc :=
  a ⇐ load1 l1; b ⇐ load1 l2; c ⇐ st_lift (np_add a b); new (Arr1 c).
Definition np_multiply_st (l1 l2 : loc) : M F loc :=
  a ⇐ load1 l1; b ⇐ load1 l2; c ⇐ st_lift (np_multiply a b); new (Arr1 c).
Definition np_subtract_st (l1 l2 : loc) : M F loc :=
  a ⇐ load2 l1; b ⇐ load2 l2; c ⇐ st_lift (np_subtract a b); new (Arr2 c).

Definition get_residual_st (data xaxis yaxis : loc)
    (gamma : F) (w0 : Z) (interp_kind : string) (return_background : bool)
    : M F loc :=
  input_data ⇐ np_copy_st data;
  X ⇐ np_copy_st xaxis;
  Y ⇐ np_copy_st yaxis;
  (* R = (X**2 + Y**2)**0.5 *)
  X2 ⇐ np_power_st X two;
  Y2 ⇐ np_power_st Y two;
  S ⇐ np_add_st X2 Y2;
  R ⇐ np_power_st S half;
  (* x = X * (R**(gamma)) *)
  Rg ⇐ np_power_st R gamma;
  x ⇐ np_multiply_st X Rg;
  (* y = Y * (R**(gamma)) *)
  Rg' ⇐ np_power_st R gamma;
  y ⇐ np_multiply_st Y Rg';
  func1 ⇐ interp2d_st X Y input_data interp_kind;
  stretched_data ⇐ interp_call func1 x y;
  background ⇐ gaussian_filter_st stretched_data w0;
  highpass_residual ⇐ np_subtract_st stretched_data background;
  if return_background then
    func2 ⇐ interp2d_st x y background interp_kind;
    output_data ⇐ interp_call func2 X Y;
    st_ret output_data
  else
    func2 ⇐ interp2d_st x y highpass_residual interp_kind;
    output_data ⇐ interp_call func2 X Y;
    st_ret output_data.

(** What a collaborator may do to the store: objects that exist before the
    call and are outside the set [fp] keep their contents. *)
Definition modifies_within {A} (fp : gset loc) (m : M F A) : Prop :=
  ∀ h l, l ∈ dom h → l ∉ fp → (m h).1 !! l = h !! l.

(** A returned reference points to an argument or to a new object. *)
Definition returns_within (fp : gset loc) (m : M F loc) : Prop :=
  ∀ h l, (m h).2 = Ok l → l ∈ fp ∨ l ∉ dom h.

(** The collaborators touch nothing but what they are given: the builder
    its three arguments, a call the two query arrays and what the
    interpolant holds on to, the filter its input. *)
Record well_behaved : Prop := {
  interp2d_frame lx ly lz k :
    modifies_within {[lx; ly; lz]} (interp2d_st lx ly lz k);
  interp2d_captured lx ly lz k h f :
    (interp2d_st lx ly lz k h).2 = Ok f →
    ∀ l, l ∈ captured f → l ∈ ({[lx; ly; lz]} : gset loc) ∨ l ∉ dom h;
  interp_call_frame f lx ly :
    modifies_within ({[lx; ly]} ∪ captured f) (interp_call f lx ly);
  interp_call_result f lx ly :
    returns_within ({[lx; ly]} ∪ captured f) (interp_call f lx ly);
  gaussian_frame l w :
    modifies_within {[l]} (gaussian_filter_st l w);
  gaussian_result l w :
    returns_within {[l]} (gaussian_filter_st l w)
}.

(** The objects of the store [h0] have kept their contents in [h]. *)
Definition untouched (h0 h : gmap loc (ndarray F)) : Prop :=
  ∀ l, l ∈ dom h0 → h !! l = h0 !! l.

(** A computation that leaves the objects of [h0] alone and whose value
    satisfies [P]. *)
Definition keeps {A} (h0 : gmap loc (ndarray F)) (P : A → Prop)
    (m : M F A) : Prop :=
  ∀ h, untouched h0 h →
    untouched h0 (m h).1 ∧ ∀ a, (m h).2 = Ok a → P a.

(** Running [m] from [h] only adds objects to the store, and it returns a
    reference to the array [o] when [r] is [Ok o], raises [e] when [r] is
    [Raise e]. *)
Definition yields (h : gmap loc (ndarray F)) (m : M F loc)
    (r : result (ndarray F)) : Prop :=
  ∃ h', h ⊆ h' ∧
    match r with
    | Ok o => ∃ l, m h = (h', Ok l) ∧ h' !! l = Some o
    | Raise e => m h = (h', Raise e)
    end.

End StoreFilter.

(** Collaborators that only read their arguments and allocate their result:
    the value-level collaborators called through references. *)
Section Lifted.
Context {F : Type} {CO : Collaborators F}.

Definition lifted_interp2d (lx ly lz : loc) (kind : string)
    : M F (interpolant F) :=
  xs ⇐ load1 lx; ys ⇐ load1 ly; z ⇐ load2 lz;
  st_lift (interp2d xs ys z kind).
Definition lifted_call (f : interpolant F) (lx ly : loc) : M F loc :=
  xs ⇐ load1 lx; ys ⇐ load1 ly; out ⇐ st_lift (f xs ys); new (Arr2 out).
Definition lifted_gaussian (l : loc) (w : Z) : M F loc :=
  a ⇐ load2 l; b ⇐ st_lift (gaussian_filter a w); new (Arr2 b).

#[local] Instance lifted : StoreCollaborators F := {
  interp_obj := interpolant F;
  interp2d_st := lifted_interp2d;
  interp_call := lifted_call;
  gaussian_filter_st := lifted_gaussian;
  captured := λ _, ∅
}.
End Lifted.

(** ** A reference instance, to run the model *)

(** Exact rational arithmetic in place of floats, and small stand-ins for the
    two scipy routines.  They are used only to evaluate the model on concrete
    inputs; every general statement below is about arbitrary instances. *)
Module Demo.

(** Square root of a rational, exact on quotients of perfect squares. *)
Definition qsqrt (q : Q) : Q :=
  (Z.sqrt (Qnum q) # Pos.sqrt (Qden q))%Q.

(** [a ** e]: the square root for [e = 0.5], integer powers otherwise. *)
Definition qpow (a e : Q) : Q :=
  if Qeq_bool e (1 # 2)%Q then qsqrt a else Qred (Qpower a (Qfloor e)).

#[export] Instance rational : Float Q := {
  fadd := λ a b, Qred (a + b);
  fsub := λ a b, Qred (a - b);
  fmul := Qmult;
  fpow := qpow;
  two := 2%Q;
  half := (1 # 2)%Q
}.

(** Index of the sample closest to [q] (the first one on ties). *)
Fixpoint nearest (q : Q) (xs : list Q) : nat :=
  match xs with
  | [] => 0%nat
  | v :: rest =>
      match rest with
      | [] => 0%nat
      | _ =>
          let i := nearest q rest in
          if Qle_bool (Qabs (v - q)%Q) (Qabs (nth i rest 0%Q - q)%Q)
          then 0%nat else S i
      end
  end.

(** The interpolation kinds of [interp2d]. *)
Definition kinds : list string := ["linear"; "cubic"; "quintic"].

(** Nearest-sample interpolation on a regular grid.  Like [interp2d] it
    rejects, with [ValueError], a value array whose shape is not
    [(len(y), len(x))] and a kind it does not know. *)
Definition nearest_interp2d (xs ys : list Q) (z : array2 Q) (kind : string)
    : result (interpolant Q) :=
  if negb (bool_decide (shape z = (length ys, length xs))) then
    Raise ValueError
  else if negb (bool_decide (kind ∈ kinds)) then
    Raise ValueError
  else
    Ok (λ qx qy,
      Ok (Array2 (length qy) (length qx)
            (qy ≫= λ v, (λ u,
               nth (nearest v ys * length xs + nearest u xs) (flat z) 0%Q)
               <$> qx))).

(** Entry [(i, j)] of an array, indices clamped to the array. *)
Definition at_clamped (a : array2 Q) (i j : Z) : Q :=
  let i' := Z.to_nat (Z.max 0 (Z.min i (Z.of_nat (nrows a) - 1))) in
  let j' := Z.to_nat (Z.max 0 (Z.min j (Z.of_nat (ncols a) - 1))) in
  nth (i' * ncols a + j') (flat a) 0%Q.

(** A five-point smoothing for a positive width; like [gaussian_filter], no
    smoothing at all for a width that is not positive. *)
Definition five_point_filter (a : array2 Q) (w : Z) : result (array2 Q) :=
  if decide (w ≤ 0) then Ok a
  else
    Ok (Array2 (nrows a) (ncols a)
          ((λ k : nat,
              let i := Z.of_nat (k / ncols a) in
              let j := Z.of_nat (k mod ncols a) in
              Qred ((4 * at_clamped a i j
                     + at_clamped a (i - 1) j + at_clamped a (i + 1) j
                     + at_clamped a i (j - 1) + at_clamped a i (j + 1)) / 8)%Q)
             <$> seq 0 (nrows a * ncols a))).

#[export] Instance scipy_like : Collaborators Q := {
  interp2d := nearest_interp2d;
  gaussian_filter := five_point_filter
}.

(** A filter that smooths its input in place and returns it, and the
    interpolation called through references. *)
Definition in_place_filter (l : loc) (w : Z) : M Q loc :=
  a ⇐ load2 l;
  b ⇐ st_lift (five_point_filter a w);
  λ h, (<[l := Arr2 b]> h, Ok l).

#[export] Instance in_place : StoreCollaborators Q := {
  interp_obj := interpolant Q;
  interp2d_st := lifted_interp2d;
  interp_call := lifted_call;
  gaussian_filter_st := in_place_filter;
  captured := λ _, ∅
}.

(** A 3 x 3 map with a unit impulse in the centre, on axes centred on 0. *)
Definition impulse : array2 Q :=
  Array2 3 3 [0; 0; 0;  0; 1; 0;  0; 0; 0]%Q.
Definition xs3 : list Q := [-3; 0; 3]%Q.
Definition ys3 : list Q := [-4; 0; 4]%Q.

(** A 3 x 2 map: three rows for a 3-point y-axis, two columns for a 2-point
    x-axis. *)
Definition map32 : array2 Q := Array2 3 2 [1; 2;  3; 4;  5; 6]%Q.
Definition xs2 : list Q := [-1; 1]%Q.

(** The store of a caller holding the impulse map and its two axes. *)
Definition caller_store : gmap loc (ndarray Q) :=
  {[ 1%positive := Arr2 impulse;
     2%positive := Arr1 xs3;
     3%positive := Arr1 ys3 ]}.

(** Another store, with the same three arrays behind other references. *)
Definition other_store : gmap loc (ndarray Q) :=
  {[ 5%positive := Arr1 xs3;
     7%positive := Arr2 impulse;
     9%positive := Arr1 ys3;
     4%positive := Arr1 xs2 ]}.


(** A caller holding the 3 x 2 map with its 2-point and 3-point axes. *)
Definition narrow_store : gmap loc (ndarray Q) :=
  {[ 1%positive := Arr2 map32;
     2%positive := Arr1 xs2;
     3%positive := Arr1 ys3 ]}.

(** Axes with two samples at radius 1. *)
Definition xs_unit : list Q := [0; 1; 3]%Q.
Definition ys_unit : list Q := [1; 0; 4]%Q.

End Demo.

(** * Properties *)

(** ** Broadcasting *)

Lemma bdim_same n : bdim n n = Some n.
Proof. unfold bdim. by rewrite decide_True. Qed.

Lemma bdim_incompatible n m :
  n ≠ m → n ≠ 1%nat → m ≠ 1%nat → bdim n m = None.
Proof. intros. unfold bdim. by rewrite !decide_False. Qed.

Lemma bdim_Some n m k :
  bdim n m = Some k →
  (n = k ∨ n = 1%nat) ∧ (m = k ∨ m = 1%nat).
Proof. unfold bdim. repeat case_decide; intros ?; simplify_eq; auto. Qed.

Lemma bdim_None n m :
  bdim n m = None ↔ n ≠ m ∧ n ≠ 1%nat ∧ m ≠ 1%nat.
Proof. unfold bdim. repeat case_decide; split; intros; simplify_eq; intuition. Qed.

Section ArrayFacts.
Context {F : Type}.
Implicit Types (a b v : list F) (op : F → F → F).

Lemma broadcast_to_same v : broadcast_to (length v) v = v.
Proof. unfold broadcast_to. by rewrite decide_True. Qed.

Lemma broadcast_to_eq n v : length v = n → broadcast_to n v = v.
Proof. intros <-. apply broadcast_to_same. Qed.

Lemma broadcast_to_singleton n (c : F) :
  broadcast_to n [c] = replicate n c.
Proof.
  unfold broadcast_to. case_decide as Hn; simpl in *.
  - by subst.
  - by rewrite app_nil_r.
Qed.

Lemma length_broadcast_to n v :
  length v = n ∨ length v = 1%nat → length (broadcast_to n v) = n.
Proof.
  intros [Hv|Hv].
  - by rewrite broadcast_to_eq.
  - destruct v as [|c [|??]]; try done.
    by rewrite broadcast_to_singleton, length_replicate.
Qed.

Lemma np_binop_same_length op a b :
  length a = length b → np_binop op a b = Ok (zip_with op a b).
Proof.
  intros Hab. unfold np_binop. rewrite Hab, bdim_same.
  by rewrite (broadcast_to_eq _ a), broadcast_to_same.
Qed.

Lemma np_binop_incompatible op a b :
  length a ≠ length b → length a ≠ 1%nat → length b ≠ 1%nat →
  np_binop op a b = Raise ValueError.
Proof. intros. unfold np_binop. by rewrite bdim_incompatible. Qed.

Lemma np_binop_Ok op a b c :
  np_binop op a b = Ok c →
  ∃ n, bdim (length a) (length b) = Some n ∧ length c = n ∧
       c = zip_with op (broadcast_to n a) (broadcast_to n b).
Proof.
  unfold np_binop. destruct (bdim _ _) as [n|] eqn:Hn; [|done].
  intros [= <-]. exists n. split_and!; [done| |done].
  apply bdim_Some in Hn as [??].
  rewrite length_zip_with, !length_broadcast_to by naive_solver. lia.
Qed.

Lemma np_binop_Raise op a b e :
  np_binop op a b = Raise e →
  e = ValueError ∧ bdim (length a) (length b) = None.
Proof. unfold np_binop. destruct (bdim _ _); naive_solver. Qed.

(** Same-shape arrays are combined entry by entry. *)
Lemma np_binop2_same_shape op (a b : array2 F) :
  shape a = shape b →
  np_binop2 op a b = Ok (Array2 (nrows a) (ncols a) (zip_with op (flat a) (flat b))).
Proof.
  intros [= Hr Hc]. unfold np_binop2, broadcast_to2.
  rewrite <-Hr, <-Hc, !bdim_same. by rewrite !decide_True.
Qed.

Lemma np_binop2_Raise op (a b : array2 F) e :
  np_binop2 op a b = Raise e → e = ValueError.
Proof. unfold np_binop2. repeat case_match; naive_solver. Qed.

End ArrayFacts.

(** ** The radial grid and the stretched axes *)

Section GridFacts.
Context {F : Type} {FL : Float F}.
Implicit Types (X Y R : list F) (gamma : F).

Lemma length_np_power X e : length (np_power X e) = length X.
Proof. unfold np_power. by rewrite length_fmap. Qed.

Lemma radial_grid_same_length X Y :
  length X = length Y → radial_grid X Y = Ok (zip_with radius X Y).
Proof.
  intros HXY. unfold radial_grid, np_add.
  rewrite np_binop_same_length by by rewrite !length_np_power.
  simpl. f_equal. unfold np_power.
  rewrite zip_with_fmap_l, zip_with_fmap_r. clear HXY.
  revert Y. induction X as [|xv X IH]; intros [|yv Y]; simpl; try done.
  by rewrite IH.
Qed.

Lemma radial_grid_incompatible X Y :
  length X ≠ length Y → length X ≠ 1%nat → length Y ≠ 1%nat →
  radial_grid X Y = Raise ValueError.
Proof.
  intros. unfold radial_grid, np_add.
  by rewrite np_binop_incompatible by by rewrite !length_np_power.
Qed.

Lemma radial_grid_Ok X Y R :
  radial_grid X Y = Ok R →
  bdim (length X) (length Y) = Some (length R).
Proof.
  unfold radial_grid, np_add.
  destruct (np_binop _ _ _) as [s|] eqn:Hs; [|done].
  intros [= <-]. apply np_binop_Ok in Hs as (n & Hn & Hlen & _).
  by rewrite !length_np_power in *; subst.
Qed.

Lemma radial_grid_Raise X Y e :
  radial_grid X Y = Raise e →
  e = ValueError ∧ bdim (length X) (length Y) = None.
Proof.
  unfold radial_grid, np_add.
  destruct (np_binop _ _ _) as [s|] eqn:Hs; [done|].
  intros [= <-]. apply np_binop_Raise in Hs.
  by rewrite !length_np_power in Hs.
Qed.

Lemma stretched_same_length X R gamma :
  length X = length R →
  stretched X R gamma = Ok (zip_with (λ xv r, fmul xv (fpow r gamma)) X R).
Proof.
  intros HXR. unfold stretched, np_multiply.
  rewrite np_binop_same_length by by rewrite length_np_power.
  unfold np_power. by rewrite zip_with_fmap_r.
Qed.

(** Against the radial grid of an axis pair, stretching never fails. *)
Lemma stretched_Ok X Y R gamma :
  radial_grid X Y = Ok R →
  (∃ x, stretched X R gamma = Ok x ∧ length x = length R) ∧
  (∃ y, stretched Y R gamma = Ok y ∧ length y = length R).
Proof.
  intros HR%radial_grid_Ok. apply bdim_Some in HR as [HX HY].
  assert (∀ A : list F, length A = length R ∨ length A = 1%nat →
    ∃ x, stretched A R gamma = Ok x ∧ length x = length R) as Hone.
  { intros A HA. unfold stretched, np_multiply, np_binop.
    rewrite length_np_power.
    assert (bdim (length A) (length R) = Some (length R)) as ->.
    { unfold bdim. repeat case_decide; destruct HA; congruence. }
    eexists; split; [done|].
    rewrite length_zip_with, !length_broadcast_to;
      rewrite ?length_np_power; [lia|by left|done]. }
  split; by apply Hone.
Qed.

End GridFacts.

(** ** The filter on values *)

Section ResidualFacts.
Context {F : Type} {FL : Float F} {CO : Collaborators F}.
Implicit Types (X Y R : list F) (gamma : F) (data : array2 F).
Implicit Types (interp_kind : string) (return_background : bool).

(** The two branches of the final [if] differ only in the array handed to
    the second interpolant. *)
Lemma get_residual_unfold data X Y gamma (w0 : Z) interp_kind return_background :
  get_residual data X Y gamma w0 interp_kind return_background =
    R ← radial_grid X Y;
    x ← stretched X R gamma;
    y ← stretched Y R gamma;
    func1 ← interp2d X Y data interp_kind;
    stretched_data ← func1 x y;
    background ← gaussian_filter stretched_data w0;
    highpass_residual ← np_subtract stretched_data background;
    func2 ← interp2d x y
      (if return_background then background else highpass_residual)
      interp_kind;
    func2 X Y.
Proof.
  unfold get_residual, copy.
  destruct (radial_grid X Y) as [R|]; simpl; [|done].
  destruct (stretched X R gamma) as [x|]; simpl; [|done].
  destruct (stretched Y R gamma) as [y|]; simpl; [|done].
  destruct (interp2d X Y data interp_kind) as [func1|]; simpl; [|done].
  destruct (func1 x y) as [stretched_data|]; simpl; [|done].
  destruct (gaussian_filter stretched_data w0) as [background|]; simpl; [|done].
  destruct (np_subtract stretched_data background) as [highpass|]; simpl; [|done].
  destruct return_background;
    (destruct (interp2d x y _ interp_kind) as [func2|]; simpl; [|done]);
    by destruct (func2 X Y).
Qed.

(** Claim C6.  A call returns [out] exactly when the five stages succeed in
    turn: the stretched axes [x], [y] are formed, the input is resampled at
    them into [stretched_data], [background] is the Gaussian filter applied
    to [stretched_data] with [sigma = w0], [highpass_residual] is
    [stretched_data - background] (entry by entry, the two having one
    shape), and [out] is the interpolant built on [(x, y)] from the array
    the flag selects, [background] if it is set and [highpass_residual]
    otherwise, evaluated at the original axes [(X, Y)]. *)
Theorem get_residual_stages data X Y gamma (w0 : Z) interp_kind
    return_background out :
  get_residual data X Y gamma w0 interp_kind return_background = Ok out ↔
  ∃ R x y func1 stretched_data background highpass_residual func2,
    radial_grid X Y = Ok R ∧
    stretched X R gamma = Ok x ∧ stretched Y R gamma = Ok y ∧
    interp2d X Y data interp_kind = Ok func1 ∧
    func1 x y = Ok stretched_data ∧
    gaussian_filter stretched_data w0 = Ok background ∧
    np_subtract stretched_data background = Ok highpass_residual ∧
    (shape stretched_data = shape background →
     highpass_residual =
       Array2 (nrows stretched_data) (ncols stretched_data)
         (zip_with fsub (flat stretched_data) (flat background))) ∧
    interp2d x y
      (if return_background then background else highpass_residual)
      interp_kind = Ok func2 ∧
    func2 X Y = Ok out.
Proof.
  rewrite get_residual_unfold. split.
  - destruct (radial_grid X Y) as [R|] eqn:HR; simpl; [|done].
    destruct (stretched X R gamma) as [x|] eqn:Hx; simpl; [|done].
    destruct (stretched Y R gamma) as [y|] eqn:Hy; simpl; [|done].
    destruct (interp2d X Y data interp_kind) as [func1|] eqn:H1; simpl; [|done].
    destruct (func1 x y) as [sd|] eqn:Hsd; simpl; [|done].
    destruct (gaussian_filter sd w0) as [bg|] eqn:Hbg; simpl; [|done].
    destruct (np_subtract sd bg) as [hp|] eqn:Hhp; simpl; [|done].
    destruct (interp2d x y _ interp_kind) as [func2|] eqn:H2; simpl; [|done].
    intros Hout. exists R, x, y, func1, sd, bg, hp, func2.
    split_and!; try done.
    intros Hshape. unfold np_subtract in Hhp.
    rewrite np_binop2_same_shape in Hhp by done. congruence.
  - intros (R & x & y & func1 & sd & bg & hp & func2 &
            HR & Hx & Hy & H1 & Hsd & Hbg & Hhp & _ & H2 & Hout).
    rewrite HR; simpl. rewrite Hx; simpl. rewrite Hy; simpl.
    rewrite H1; simpl. rewrite Hsd; simpl. rewrite Hbg; simpl.
    rewrite Hhp; simpl. by rewrite H2.
Qed.

(** Claim C2, as the code has it.  [get_residual] checks nothing itself: it
    raises [e] exactly when one of its stages does.  That is numpy's
    [ValueError] for axes that cannot be broadcast together (or for a filter
    output that cannot be subtracted from the filter input), or the
    exception of a collaborator call, which receives [interp_kind], [w0] and
    the data array as they were passed in. *)
Theorem get_residual_raises data X Y gamma (w0 : Z) interp_kind
    return_background e :
  get_residual data X Y gamma w0 interp_kind return_background = Raise e ↔
  raises_at data X Y gamma w0 interp_kind return_background e.
Proof.
  rewrite get_residual_unfold. unfold raises_at. split.
  - destruct (radial_grid X Y) as [R|] eqn:HR; simpl; [|intros [= ->]; by left].
    destruct (stretched_Ok X Y R gamma HR) as [(x & Hx & _) (y & Hy & _)].
    rewrite Hx, Hy; simpl. intros Hrun.
    right. exists R, x, y. split_and!; try done.
    destruct (interp2d X Y data interp_kind) as [func1|]; simpl in *;
      [right; exists func1; split; [done|] | left; congruence].
    destruct (func1 x y) as [sd|]; simpl in *;
      [right; exists sd; split; [done|] | left; congruence].
    destruct (gaussian_filter sd w0) as [bg|]; simpl in *;
      [right; exists bg; split; [done|] | left; congruence].
    destruct (np_subtract sd bg) as [hp|]; simpl in *;
      [right; exists hp; split; [done|] | left; congruence].
    destruct (interp2d x y _ interp_kind) as [func2|]; simpl in *;
      [right; exists func2; split; [done|] | left; congruence].
    done.
  - intros [-> | (R & x & y & HR & Hx & Hy & Hrest)]; simpl; [done|].
    rewrite HR; simpl. rewrite Hx; simpl. rewrite Hy; simpl.
    destruct Hrest as [-> | (func1 & -> & Hrest)]; simpl; [done|].
    destruct Hrest as [-> | (sd & -> & Hrest)]; simpl; [done|].
    destruct Hrest as [-> | (bg & -> & Hrest)]; simpl; [done|].
    destruct Hrest as [-> | (hp & -> & Hrest)]; simpl; [done|].
    destruct Hrest as [-> | (func2 & -> & Hrest)]; simpl; done.
Qed.

(** Claim C10.  Axes of different lengths, neither of length 1, cannot be
    added entry by entry: the radial grid raises numpy's [ValueError], and
    so does the whole call, whatever the collaborators, the map and the
    other parameters are. *)
Theorem get_residual_unequal_axes data X Y gamma (w0 : Z) interp_kind
    return_background :
  length X ≠ length Y → length X ≠ 1%nat → length Y ≠ 1%nat →
  radial_grid X Y = Raise ValueError ∧
  get_residual data X Y gamma w0 interp_kind return_background
    = Raise ValueError.
Proof.
  intros Hne HX HY.
  assert (radial_grid X Y = Raise ValueError) as HR
    by by apply radial_grid_incompatible.
  split; [done|].
  rewrite get_residual_unfold. by rewrite HR.
Qed.


(** Rows of equal length laid end to end: entry [j] of row [i]. *)
Lemma lookup_rows {A B} (g : A → list B) n (l : list A) i j :
  (∀ a, length (g a) = n) → (j < n)%nat →
  (l ≫= g) !! (i * n + j)%nat = l !! i ≫= λ a, g a !! j.
Proof.
  intros Hg Hj. revert i. induction l as [|a l IH]; intros i; [done|].
  simpl. destruct i as [|i]; simpl.
  - rewrite lookup_app_l by (rewrite Hg; lia). done.
  - rewrite lookup_app_r by (rewrite Hg; lia). rewrite Hg.
    replace (n + i * n + j - n)%nat with (i * n + j)%nat by lia. apply IH.
Qed.

(** Claim C1, as the code has it.  For axes of one length the radial grid
    is a 1-D array of that length, [R[i] = (X[i]**2 + Y[i]**2)**0.5]: the
    diagonal of the full grid, not the grid.  The stretched coordinates
    [x[i] = X[i] * R[i]**gamma] and [y[i] = Y[i] * R[i]**gamma] are 1-D
    arrays of that length too. *)
Theorem radial_grid_elementwise X Y gamma :
  length X = length Y →
  ∃ R x y,
    radial_grid X Y = Ok R ∧ stretched X R gamma = Ok x ∧
    stretched Y R gamma = Ok y ∧
    R = zip_with radius X Y ∧
    x = zip_with (λ xv r, fmul xv (fpow r gamma)) X R ∧
    y = zip_with (λ yv r, fmul yv (fpow r gamma)) Y R ∧
    np_shape (Arr1 R) = [length X] ∧
    np_shape (Arr1 x) = [length X] ∧
    np_shape (Arr1 y) = [length X] ∧
    ∀ i, (i < length X)%nat →
      R !! i = flat (spec_radial_grid X Y) !! (i * length X + i)%nat.
Proof.
  intros HXY.
  assert (length (zip_with radius X Y) = length X) as HR
    by (rewrite length_zip_with; lia).
  eexists _, _, _. split_and!; try done.
  - by apply radial_grid_same_length.
  - apply stretched_same_length. by rewrite HR.
  - apply stretched_same_length. by rewrite HR.
  - simpl. by rewrite HR.
  - simpl. rewrite length_zip_with, HR. f_equal; lia.
  - simpl. rewrite length_zip_with, HR. f_equal; lia.
  - intros i Hi. simpl.
    rewrite (lookup_rows _ (length X)); [|intros; by rewrite length_fmap|done].
    rewrite lookup_zip_with.
    destruct (Y !! i) as [yv|] eqn:Hy; simpl.
    + rewrite list_lookup_fmap. by destruct (X !! i).
    + by destruct (X !! i).
Qed.

Lemma np_power_zero (zero one : F) R :
  (∀ r, fpow r zero = one) →
  np_power R zero = replicate (length R) one.
Proof. intros Hpow. unfold np_power. by apply const_fmap. Qed.

Lemma stretched_zero (zero one : F) A R :
  (∀ r, fpow r zero = one) → (∀ a, fmul a one = a) →
  length A = length R ∨ length A = 1%nat →
  stretched A R zero = Ok (broadcast_to (length R) A).
Proof.
  intros Hpow Hmul HA. unfold stretched, np_multiply, np_binop.
  rewrite (np_power_zero zero one) by done. rewrite length_replicate.
  assert (bdim (length A) (length R) = Some (length R)) as ->.
  { unfold bdim. repeat case_decide; destruct HA; congruence. }
  f_equal. rewrite (broadcast_to_eq _ (replicate _ _))
    by by rewrite length_replicate.
  rewrite zip_with_replicate_r_eq by by apply length_broadcast_to.
  rewrite <-(list_fmap_id (broadcast_to _ A)) at 2.
  apply list_fmap_ext. intros ???. apply Hmul.
Qed.

(** Without stretch and with an interpolant that reproduces its samples,
    the two resampling steps drop out: what is left is the Gaussian filter
    on the map itself and the subtraction. *)
Lemma get_residual_without_stretch data X Y R gamma (w0 : Z) interp_kind
    return_background :
  radial_grid X Y = Ok R →
  stretched X R gamma = Ok X → stretched Y R gamma = Ok Y →
  on_grid X Y data →
  interp2d_exact_on X Y interp_kind →
  gaussian_filter_keeps_grid X Y w0 →
  get_residual data X Y gamma w0 interp_kind return_background =
    spec_fixed_width_highpass data w0 return_background.
Proof.
  intros HR Hx Hy Hdata Hexact Hkeeps.
  rewrite get_residual_unfold, HR; simpl. rewrite Hx; simpl.
  rewrite Hy; simpl.
  destruct (Hexact data Hdata) as (func1 & -> & Hround); simpl.
  rewrite Hround; simpl. unfold spec_fixed_width_highpass.
  destruct (gaussian_filter data w0) as [background|e] eqn:Hbg; simpl;
    [|done].
  pose proof (Hkeeps data background Hdata Hbg) as Hbackground.
  assert (shape data = shape background) as Hshape.
  { destruct Hdata as [-> _], Hbackground as [-> _]. done. }
  unfold np_subtract. rewrite np_binop2_same_shape by done. simpl.
  set (highpass := Array2 _ _ _).
  assert (on_grid X Y highpass) as Hhighpass.
  { destruct Hdata as [Hs Hl], Hbackground as [_ Hl']. split; [done|].
    subst highpass. simpl. rewrite length_zip_with. lia. }
  destruct return_background.
  - destruct (Hexact background Hbackground) as (func2 & -> & Hround2).
    simpl. by rewrite Hround2.
  - destruct (Hexact highpass Hhighpass) as (func2 & -> & Hround2).
    simpl. by rewrite Hround2.
Qed.

(** Claim C4.  With [gamma = 0], where [r ** 0 = 1] for every [r] (zero
    included) and [a * 1 = a], the stretched axes are the axes themselves
    (at the extent of [R]; literally [x = X] and [y = Y] for axes of one
    length).  The call is then the plain fixed-width Gaussian high-pass
    filter: with an interpolant that reproduces its samples (no round-trip
    error), the output is the Gaussian filter of the map itself if the flag
    is set, and the map minus that, entry by entry, if it is not. *)
Theorem gamma_zero_no_stretch (zero one : F) data X Y R (w0 : Z) interp_kind
    return_background :
  (∀ r, fpow r zero = one) → (∀ a, fmul a one = a) →
  radial_grid X Y = Ok R →
  stretched X R zero = Ok (broadcast_to (length R) X) ∧
  stretched Y R zero = Ok (broadcast_to (length R) Y) ∧
  (length X = length Y →
   stretched X R zero = Ok X ∧ stretched Y R zero = Ok Y) ∧
  (length X = length Y →
   on_grid X Y data →
   interp2d_exact_on X Y interp_kind →
   gaussian_filter_keeps_grid X Y w0 →
   get_residual data X Y zero w0 interp_kind return_background =
     spec_fixed_width_highpass data w0 return_background).
Proof.
  intros Hpow Hmul HR.
  pose proof (radial_grid_Ok _ _ _ HR) as [HX HY]%bdim_Some.
  assert (stretched X R zero = Ok (broadcast_to (length R) X)) as Hx
    by by apply (stretched_zero zero one).
  assert (stretched Y R zero = Ok (broadcast_to (length R) Y)) as Hy
    by by apply (stretched_zero zero one).
  assert (length X = length Y →
          stretched X R zero = Ok X ∧ stretched Y R zero = Ok Y) as Hsame.
  { intros HXY.
    assert (length X = length R) as HXR.
    { pose proof (radial_grid_Ok _ _ _ HR) as Hb.
      rewrite HXY, bdim_same in Hb. congruence. }
    rewrite Hx, Hy. by rewrite !broadcast_to_eq by congruence. }
  split_and!; try done.
  intros HXY Hdata Hexact Hkeeps. destruct (Hsame HXY) as [Hx' Hy'].
  by apply (get_residual_without_stretch data X Y R).
Qed.

(** Property X7.  Whatever a call returns has the shape [(len(Y), len(X))],
    as soon as interpolants answer in the shape of their query: the shape
    comes from the last evaluation at [(X, Y)], whatever the shape of the
    map passed in. *)
Lemma get_residual_shape_of_result data X Y gamma (w0 : Z) interp_kind
    return_background out :
  (∀ xs ys z f qx qy r, interp2d xs ys z interp_kind = Ok f →
     f qx qy = Ok r → shape r = (length qy, length qx)) →
  get_residual data X Y gamma w0 interp_kind return_background = Ok out →
  shape out = (length Y, length X).
Proof.
  intros Hshape Hrun. rewrite get_residual_unfold in Hrun.
  destruct (radial_grid X Y) as [R|]; simpl in *; [|done].
  destruct (stretched X R gamma) as [x|]; simpl in *; [|done].
  destruct (stretched Y R gamma) as [y|]; simpl in *; [|done].
  destruct (interp2d X Y data interp_kind) as [func1|]; simpl in *; [|done].
  destruct (func1 x y) as [sd|]; simpl in *; [|done].
  destruct (gaussian_filter sd w0) as [bg|]; simpl in *; [|done].
  destruct (np_subtract sd bg) as [hp|]; simpl in *; [|done].
  destruct (interp2d x y _ interp_kind) as [func2|] eqn:H2; simpl in *;
    [|done].
  eauto.
Qed.

(** Claim C5, as the code has it.  Take a map of shape [(len(Y), len(X))]
    on axes that can be broadcast together to the extent [n] (axes of one
    length [n], or one of them of length 1), and collaborators that accept
    the interpolation kind on the original grid and on the [n] by [n]
    stretched grid, and the kernel width.  The call returns an array, and
    it has the shape of the map.  (On other axes the call returns nothing,
    see C10.) *)
Theorem get_residual_shape data X Y gamma (w0 : Z) interp_kind
    return_background n :
  bdim (length X) (length Y) = Some n →
  interp2d_accepts interp_kind (length Y) (length X) →
  interp2d_accepts interp_kind n n →
  gaussian_filter_accepts w0 →
  shape data = (length Y, length X) →
  ∃ out,
    get_residual data X Y gamma w0 interp_kind return_background = Ok out ∧
    shape out = shape data.
Proof.
  intros Haxes Hgrid Hstretched Hgauss Hdata. rewrite get_residual_unfold.
  destruct (radial_grid X Y) as [R|e] eqn:HR; simpl.
  2:{ apply radial_grid_Raise in HR as [_ HR]. congruence. }
  assert (length R = n) as HRn.
  { apply radial_grid_Ok in HR. congruence. }
  destruct (stretched_Ok X Y R gamma HR) as [(x & -> & Hx) (y & -> & Hy)].
  simpl.
  destruct (Hgrid X Y data eq_refl eq_refl Hdata) as (func1 & -> & Hcall1).
  simpl.
  destruct (Hcall1 x y) as (sd & -> & Hsd); simpl.
  destruct (Hgauss sd) as (bg & -> & Hbg); simpl.
  unfold np_subtract. rewrite np_binop2_same_shape by done. simpl.
  set (sel := if return_background then bg else _).
  assert (shape sel = (n, n)) as Hsel.
  { subst sel. destruct return_background.
    - rewrite Hbg, Hsd. congruence.
    - unfold shape in *. simpl. congruence. }
  destruct (Hstretched x y sel) as (func2 & -> & Hcall2);
    [congruence..|]; simpl.
  destruct (Hcall2 X Y) as (out & -> & Hout).
  exists out. split; [done|]. congruence.
Qed.

End ResidualFacts.

(** ** The filter on the store: the caller's arrays *)

Section StoreFacts.
Context {F : Type} {FL : Float F} {SC : StoreCollaborators F}.
Implicit Types (h : gmap loc (ndarray F)) (l : loc).

Lemma untouched_refl h : untouched h h.
Proof. by intros l _. Qed.

Lemma untouched_dom h0 h l : untouched h0 h → l ∈ dom h0 → l ∈ dom h.
Proof.
  intros Hh Hl. apply elem_of_dom. rewrite (Hh l Hl). by apply elem_of_dom.
Qed.

Lemma keeps_bind {A B} h0 (P : A → Prop) (Q : B → Prop)
    (m : M F A) (k : A → M F B) :
  keeps h0 P m → (∀ a, P a → keeps h0 Q (k a)) →
  keeps h0 Q (st_bind m k).
Proof.
  intros Hm Hk h Hh. unfold st_bind.
  destruct (Hm h Hh) as [Hh' HP].
  destruct (m h) as [h' [a|e]]; simpl in *; [|done].
  by apply Hk; [apply HP|].
Qed.

Lemma keeps_ret {A} h0 (P : A → Prop) (a : A) : P a → keeps h0 P (st_ret a).
Proof. intros HP h Hh. split; [done|]. by intros ? [= <-]. Qed.

Lemma keeps_lift {A} h0 (r : result A) : keeps h0 (λ _, True) (st_lift r).
Proof. by intros h Hh. Qed.

Lemma keeps_load h0 l : keeps h0 (λ _, True) (load l).
Proof. intros h Hh. unfold load. by destruct (h !! l). Qed.

Lemma keeps_load1 h0 l : keeps h0 (λ _, True) (load1 l).
Proof. intros h Hh. unfold load1. by destruct (h !! l) as [[]|]. Qed.

Lemma keeps_load2 h0 l : keeps h0 (λ _, True) (load2 l).
Proof. intros h Hh. unfold load2. by destruct (h !! l) as [[]|]. Qed.

(** A new object is none of the objects of [h0]. *)
Lemma keeps_new h0 (o : ndarray F) : keeps h0 (λ l, l ∉ dom h0) (new o).
Proof.
  intros h Hh. unfold new. cbv zeta. cbn [fst snd].
  assert (fresh (dom h) ∉ dom h0) as Hfresh.
  { intros Hl%(untouched_dom _ h); [|done]. by apply is_fresh in Hl. }
  split.
  - intros l Hl. rewrite lookup_insert_ne; [by apply Hh|]. congruence.
  - by intros ? [= <-].
Qed.

Ltac keeps_step :=
  first
    [ apply keeps_new
    | eapply keeps_bind;
      [ first [ apply keeps_load | apply keeps_load1 | apply keeps_load2
              | apply keeps_lift ]
      | intros ? _ ] ].

Lemma keeps_np_copy h0 l : keeps h0 (λ l', l' ∉ dom h0) (np_copy_st l).
Proof. unfold np_copy_st. repeat keeps_step. Qed.

Lemma keeps_np_power h0 l e : keeps h0 (λ l', l' ∉ dom h0) (np_power_st l e).
Proof. unfold np_power_st. repeat keeps_step. Qed.

Lemma keeps_np_add h0 l1 l2 : keeps h0 (λ l', l' ∉ dom h0) (np_add_st l1 l2).
Proof. unfold np_add_st. repeat keeps_step. Qed.

Lemma keeps_np_multiply h0 l1 l2 :
  keeps h0 (λ l', l' ∉ dom h0) (np_multiply_st l1 l2).
Proof. unfold np_multiply_st. repeat keeps_step. Qed.

Lemma keeps_np_subtract h0 l1 l2 :
  keeps h0 (λ l', l' ∉ dom h0) (np_subtract_st l1 l2).
Proof. unfold np_subtract_st. repeat keeps_step. Qed.

(** An object of [h0] is none of the new objects of a footprint. *)
Ltac outside_footprint Hin :=
  repeat (apply elem_of_union in Hin as [Hin|Hin]);
  apply elem_of_singleton in Hin; subst; done.

Section WellBehaved.
Hypothesis Hwb : well_behaved.

Lemma keeps_interp2d h0 lx ly lz k :
  lx ∉ dom h0 → ly ∉ dom h0 → lz ∉ dom h0 →
  keeps h0 (λ f, ∀ l, l ∈ captured f → l ∉ dom h0) (interp2d_st lx ly lz k).
Proof.
  intros Hx Hy Hz h Hh. split.
  - intros l Hl. rewrite <-(Hh l Hl).
    apply (interp2d_frame Hwb); [by eapply untouched_dom|].
    intros Hin. outside_footprint Hin.
  - intros f Hf l Hl.
    destruct (interp2d_captured Hwb _ _ _ _ _ _ Hf l Hl) as [Hin|Hnew].
    + intros Hl0. outside_footprint Hin.
    + intros Hl0. apply Hnew. by eapply untouched_dom.
Qed.

Lemma keeps_interp_call h0 f lx ly :
  lx ∉ dom h0 → ly ∉ dom h0 → (∀ l, l ∈ captured f → l ∉ dom h0) →
  keeps h0 (λ l, l ∉ dom h0) (interp_call f lx ly).
Proof.
  intros Hx Hy Hf h Hh. split.
  - intros l Hl. rewrite <-(Hh l Hl).
    apply (interp_call_frame Hwb); [by eapply untouched_dom|].
    intros [Hin|?]%elem_of_union; [|by eapply Hf].
    outside_footprint Hin.
  - intros l Hrun.
    destruct (interp_call_result Hwb _ _ _ _ _ Hrun) as [Hin|Hnew].
    + apply elem_of_union in Hin as [Hin|?]; [|by apply Hf].
      intros Hl0. outside_footprint Hin.
    + intros Hl0. apply Hnew. by eapply untouched_dom.
Qed.

Lemma keeps_gaussian_filter h0 l w :
  l ∉ dom h0 → keeps h0 (λ l', l' ∉ dom h0) (gaussian_filter_st l w).
Proof.
  intros Hl0 h Hh. split.
  - intros l' Hl'. rewrite <-(Hh l' Hl').
    apply (gaussian_frame Hwb); [by eapply untouched_dom|].
    intros Hin. outside_footprint Hin.
  - intros l' Hrun.
    destruct (gaussian_result Hwb _ _ _ _ Hrun) as [Hin|Hnew].
    + intros Hl1. outside_footprint Hin.
    + intros Hl1. apply Hnew. by eapply untouched_dom.
Qed.

Lemma keeps_get_residual h0 data xaxis yaxis gamma (w0 : Z) interp_kind
    return_background :
  keeps h0 (λ l, l ∉ dom h0)
    (get_residual_st data xaxis yaxis gamma w0 interp_kind return_background).
Proof.
  unfold get_residual_st.
  eapply keeps_bind; [apply keeps_np_copy|intros input_data Hdata].
  eapply keeps_bind; [apply keeps_np_copy|intros X HX].
  eapply keeps_bind; [apply keeps_np_copy|intros Y HY].
  eapply keeps_bind; [apply keeps_np_power|intros X2 HX2].
  eapply keeps_bind; [apply keeps_np_power|intros Y2 HY2].
  eapply keeps_bind; [apply keeps_np_add|intros S HS].
  eapply keeps_bind; [apply keeps_np_power|intros R HR].
  eapply keeps_bind; [apply keeps_np_power|intros Rg HRg].
  eapply keeps_bind; [apply keeps_np_multiply|intros x Hx].
  eapply keeps_bind; [apply keeps_np_power|intros Rg' HRg'].
  eapply keeps_bind; [apply keeps_np_multiply|intros y Hy].
  eapply keeps_bind; [by apply keeps_interp2d|intros func1 Hfunc1].
  eapply keeps_bind; [by apply keeps_interp_call|intros sd Hsd].
  eapply keeps_bind; [by apply keeps_gaussian_filter|intros bg Hbg].
  eapply keeps_bind; [apply keeps_np_subtract|intros hp Hhp].
  destruct return_background.
  - eapply keeps_bind; [by apply keeps_interp2d|intros func2 Hfunc2].
    eapply keeps_bind; [by apply keeps_interp_call|intros out Hout].
    by apply keeps_ret.
  - eapply keeps_bind; [by apply keeps_interp2d|intros func2 Hfunc2].
    eapply keeps_bind; [by apply keeps_interp_call|intros out Hout].
    by apply keeps_ret.
Qed.

(** Claim C8.  Collaborators that touch only what they are given cannot
    reach the caller's arrays, because the call hands them nothing but its
    own copies and intermediate arrays: every object that exists before the
    call, the data map and the two axes among them, has the same contents
    after it, whether the call returns or raises; the returned array is a
    new object. *)
Theorem get_residual_leaves_inputs h data xaxis yaxis gamma (w0 : Z)
    interp_kind return_background :
  data ∈ dom h → xaxis ∈ dom h → yaxis ∈ dom h →
  let run :=
    get_residual_st data xaxis yaxis gamma w0 interp_kind return_background h
  in
  run.1 !! data = h !! data ∧
  run.1 !! xaxis = h !! xaxis ∧
  run.1 !! yaxis = h !! yaxis ∧
  (∀ l, l ∈ dom h → run.1 !! l = h !! l) ∧
  (∀ out, run.2 = Ok out → out ∉ dom h).
Proof.
  intros Hd Hx Hy run.
  destruct (keeps_get_residual h data xaxis yaxis gamma w0 interp_kind
              return_background h (untouched_refl h)) as [Hkeep Hout].
  fold run in Hkeep, Hout. split_and!; auto.
Qed.

End WellBehaved.
End StoreFacts.

(** ** The filter on the store computes the filter on values *)

Section Refinement.
Context {F : Type} {FL : Float F} {CO : Collaborators F}.
Local Existing Instance lifted.
Implicit Types (h : gmap loc (ndarray F)) (l : loc).

Lemma st_bind_Ok {A B} (m : M F A) (k : A → M F B) h h' a :
  m h = (h', Ok a) → st_bind m k h = k a h'.
Proof. intros Hm. unfold st_bind. by rewrite Hm. Qed.

Lemma st_bind_Raise {A B} (m : M F A) (k : A → M F B) h h' e :
  m h = (h', Raise e) → st_bind m k h = (h', Raise e).
Proof. intros Hm. unfold st_bind. by rewrite Hm. Qed.

Lemma load_Some h l o : h !! l = Some o → load l h = (h, Ok o).
Proof. intros Hl. unfold load. by rewrite Hl. Qed.

Lemma load1_Some h l v : h !! l = Some (Arr1 v) → load1 l h = (h, Ok v).
Proof. intros Hl. unfold load1. by rewrite Hl. Qed.

Lemma load2_Some h l a : h !! l = Some (Arr2 a) → load2 l h = (h, Ok a).
Proof. intros Hl. unfold load2. by rewrite Hl. Qed.

Lemma yields_new h (o : ndarray F) : yields h (new o) (Ok o).
Proof.
  exists (<[fresh (dom h) := o]> h). split.
  - apply insert_subseteq, not_elem_of_dom, is_fresh.
  - exists (fresh (dom h)). split; [done|]. apply lookup_insert_eq.
Qed.

(** An operation that reads, computes a value that may raise, and
    allocates the value. *)
Lemma yields_lift_new h {A} (r : result A) (wrap : A → ndarray F) :
  yields h (c ⇐ st_lift r; new (wrap c)) (wrap <$> r).
Proof.
  destruct r as [c|e]; simpl.
  - apply yields_new.
  - by exists h.
Qed.

Lemma yields_np_copy h l o :
  h !! l = Some o → yields h (np_copy_st l) (Ok o).
Proof.
  intros Hl. unfold yields, np_copy_st.
  rewrite (st_bind_Ok _ _ _ _ _ (load_Some _ _ _ Hl)). apply yields_new.
Qed.

Lemma yields_np_power h l a e :
  h !! l = Some (Arr1 a) →
  yields h (np_power_st l e) (Ok (Arr1 (np_power a e))).
Proof.
  intros Hl. unfold yields, np_power_st.
  rewrite (st_bind_Ok _ _ _ _ _ (load1_Some _ _ _ Hl)). apply yields_new.
Qed.

Lemma yields_np_add h l1 l2 a b :
  h !! l1 = Some (Arr1 a) → h !! l2 = Some (Arr1 b) →
  yields h (np_add_st l1 l2) (Arr1 <$> np_add a b).
Proof.
  intros H1 H2. unfold yields, np_add_st.
  rewrite (st_bind_Ok _ _ _ _ _ (load1_Some _ _ _ H1)).
  rewrite (st_bind_Ok _ _ _ _ _ (load1_Some _ _ _ H2)).
  apply yields_lift_new.
Qed.

Lemma yields_np_multiply h l1 l2 a b :
  h !! l1 = Some (Arr1 a) → h !! l2 = Some (Arr1 b) →
  yields h (np_multiply_st l1 l2) (Arr1 <$> np_multiply a b).
Proof.
  intros H1 H2. unfold yields, np_multiply_st.
  rewrite (st_bind_Ok _ _ _ _ _ (load1_Some _ _ _ H1)).
  rewrite (st_bind_Ok _ _ _ _ _ (load1_Some _ _ _ H2)).
  apply yields_lift_new.
Qed.

Lemma yields_np_subtract h l1 l2 a b :
  h !! l1 = Some (Arr2 a) → h !! l2 = Some (Arr2 b) →
  yields h (np_subtract_st l1 l2) (Arr2 <$> np_subtract a b).
Proof.
  intros H1 H2. unfold yields, np_subtract_st.
  rewrite (st_bind_Ok _ _ _ _ _ (load2_Some _ _ _ H1)).
  rewrite (st_bind_Ok _ _ _ _ _ (load2_Some _ _ _ H2)).
  apply yields_lift_new.
Qed.

Lemma lifted_interp2d_run h lx ly lz xs ys z k :
  h !! lx = Some (Arr1 xs) → h !! ly = Some (Arr1 ys) →
  h !! lz = Some (Arr2 z) →
  lifted_interp2d lx ly lz k h = (h, interp2d xs ys z k).
Proof.
  intros Hx Hy Hz. unfold lifted_interp2d.
  rewrite (st_bind_Ok _ _ _ _ _ (load1_Some _ _ _ Hx)).
  rewrite (st_bind_Ok _ _ _ _ _ (load1_Some _ _ _ Hy)).
  by rewrite (st_bind_Ok _ _ _ _ _ (load2_Some _ _ _ Hz)).
Qed.

Lemma yields_lifted_call h (f : interpolant F) lx ly xs ys :
  h !! lx = Some (Arr1 xs) → h !! ly = Some (Arr1 ys) →
  yields h (lifted_call f lx ly) (Arr2 <$> f xs ys).
Proof.
  intros Hx Hy. unfold yields, lifted_call.
  rewrite (st_bind_Ok _ _ _ _ _ (load1_Some _ _ _ Hx)).
  rewrite (st_bind_Ok _ _ _ _ _ (load1_Some _ _ _ Hy)).
  apply yields_lift_new.
Qed.

Lemma yields_lifted_gaussian h l a w :
  h !! l = Some (Arr2 a) →
  yields h (lifted_gaussian l w) (Arr2 <$> gaussian_filter a w).
Proof.
  intros Hl. unfold yields, lifted_gaussian.
  rewrite (st_bind_Ok _ _ _ _ _ (load2_Some _ _ _ Hl)).
  apply yields_lift_new.
Qed.

(** Sequencing: the continuation runs in the grown store, where the
    result of the first step is found behind the returned reference. *)
Lemma yields_bind h (m : M F loc) (k : loc → M F loc)
    (r : result (ndarray F)) (r' : result (ndarray F)) :
  yields h m r →
  (∀ e, r = Raise e → r' = Raise e) →
  (∀ o h' l, r = Ok o → h ⊆ h' → h' !! l = Some o → yields h' (k l) r') →
  yields h (st_bind m k) r'.
Proof.
  intros (h1 & Hsub & Hm) Hraise Hk. destruct r as [o|e].
  - destruct Hm as (l & Hm & Hl).
    destruct (Hk o h1 l eq_refl Hsub Hl) as (h2 & Hsub2 & Hk2).
    exists h2. split; [by etrans|].
    by rewrite (st_bind_Ok _ _ _ _ _ Hm).
  - rewrite (Hraise e eq_refl). exists h1. split; [done|].
    by apply st_bind_Raise.
Qed.


Lemma yields_bind_Ok h (m k : _) (o : ndarray F) r' :
  yields h m (Ok o) →
  (∀ h' l, h ⊆ h' → h' !! l = Some o → yields h' (k l) r') →
  yields h (st_bind m k) r'.
Proof.
  intros Hm Hk. eapply yields_bind; [done|done|].
  intros ??? [= <-]. apply Hk.
Qed.

Lemma yields_bind_Raise h (m k : _) e :
  yields h m (Raise e) → yields h (st_bind m k) (Raise e).
Proof. intros Hm. eapply yields_bind; [done| |done]. by intros ? [= <-]. Qed.

Lemma yields_bind_pure_Ok {A} h (m : M F A) (k : A → M F loc) a r' :
  m h = (h, Ok a) → yields h (k a) r' → yields h (st_bind m k) r'.
Proof.
  intros Hm. unfold yields. by rewrite (st_bind_Ok _ _ _ _ _ Hm).
Qed.

Lemma yields_bind_pure_Raise {A} h (m : M F A) (k : A → M F loc) e :
  m h = (h, Raise e) → yields h (st_bind m k) (Raise e).
Proof.
  intros Hm. exists h. split; [done|]. by apply st_bind_Raise.
Qed.

Lemma yields_ret h l o : h !! l = Some o → yields h (st_ret l) (Ok o).
Proof. intros Hl. exists h. split; [done|]. by exists l. Qed.

(** Bring what is known of the store forward across a step. *)
Ltac carry Hsub :=
  match type of Hsub with
  | ?h ⊆ ?h' =>
      repeat match goal with
             | Hl : h !! ?l = Some ?o |- _ =>
                 apply (λ Hl', lookup_weaken h h' l o Hl' Hsub) in Hl
             end;
      clear Hsub
  end.

Tactic Notation "step" constr(lem) "as" ident(l) ident(Hl) :=
  let Hsub := fresh "Hsub" in
  eapply yields_bind_Ok; [by apply lem | intros ? l Hsub Hl; carry Hsub].

(** A step whose value [r] may be an exception: either the whole run
    raises it, or the run goes on with the value. *)
Tactic Notation "step" constr(lem) "on" constr(r) "as" ident(v) ident(l)
    ident(Hl) :=
  let Hr := fresh "Hr" in
  let Hstep := fresh "Hstep" in
  let Hsub := fresh "Hsub" in
  pose proof lem as Hstep;
  destruct r as [v|?] eqn:Hr; simpl in Hstep |- *;
  [ eapply yields_bind_Ok; [exact Hstep | clear Hstep;
                            intros ? l Hsub Hl; carry Hsub]
  | by apply yields_bind_Raise ].

(** Called through references on arrays with the contents [data], [X] and
    [Y], the filter returns a reference to what the filter on values
    returns, or raises what it raises. *)
Lemma get_residual_st_yields h d lx ly data X Y gamma (w0 : Z)
    interp_kind return_background :
  h !! d = Some (Arr2 data) →
  h !! lx = Some (Arr1 X) → h !! ly = Some (Arr1 Y) →
  yields h
    (get_residual_st d lx ly gamma w0 interp_kind return_background)
    (Arr2 <$> get_residual data X Y gamma w0 interp_kind return_background).
Proof.
  intros Hd Hx Hy. rewrite get_residual_unfold.
  unfold get_residual_st, radial_grid, stretched.
  step yields_np_copy as input_data Hinput.
  step yields_np_copy as lX HX.
  step yields_np_copy as lY HY.
  step yields_np_power as lX2 HX2.
  step yields_np_power as lY2 HY2.
  step (yields_np_add _ _ _ _ _ HX2 HY2)
    on (np_add (np_power X two) (np_power Y two)) as s lS HS.
  step yields_np_power as lR HR.
  step yields_np_power as lRg HRg.
  step (yields_np_multiply _ _ _ _ _ HX HRg)
    on (np_multiply X (np_power (np_power s half) gamma)) as x lx' Hx'.
  step yields_np_power as lRg' HRg'.
  step (yields_np_multiply _ _ _ _ _ HY HRg')
    on (np_multiply Y (np_power (np_power s half) gamma)) as y ly' Hy'.
  pose proof (lifted_interp2d_run _ _ _ _ _ _ _ interp_kind HX HY Hinput)
    as Hbuild1.
  destruct (interp2d X Y data interp_kind) as [func1|e1]; simpl;
    [|by eapply yields_bind_pure_Raise].
  eapply yields_bind_pure_Ok; [exact Hbuild1|clear Hbuild1].
  step (yields_lifted_call _ func1 _ _ _ _ Hx' Hy')
    on (func1 x y) as stretched_data lsd Hsd.
  step (yields_lifted_gaussian _ _ _ w0 Hsd)
    on (gaussian_filter stretched_data w0) as background lbg Hbg.
  step (yields_np_subtract _ _ _ _ _ Hsd Hbg)
    on (np_subtract stretched_data background) as highpass lhp Hhp.
  destruct return_background.
  - pose proof (lifted_interp2d_run _ _ _ _ _ _ _ interp_kind Hx' Hy' Hbg)
      as Hbuild2.
    destruct (interp2d x y background interp_kind) as [func2|e2]; simpl;
      [|by eapply yields_bind_pure_Raise].
    eapply yields_bind_pure_Ok; [exact Hbuild2|clear Hbuild2].
    step (yields_lifted_call _ func2 _ _ _ _ HX HY)
      on (func2 X Y) as out lout Hout.
    by apply yields_ret.
  - pose proof (lifted_interp2d_run _ _ _ _ _ _ _ interp_kind Hx' Hy' Hhp)
      as Hbuild2.
    destruct (interp2d x y highpass interp_kind) as [func2|e2]; simpl;
      [|by eapply yields_bind_pure_Raise].
    eapply yields_bind_pure_Ok; [exact Hbuild2|clear Hbuild2].
    step (yields_lifted_call _ func2 _ _ _ _ HX HY)
      on (func2 X Y) as out lout Hout.
    by apply yields_ret.
Qed.

(** Claim C9.  Two calls on arrays with the same contents and with the same
    parameters, from any two stores and through any references, end alike:
    both raise the same exception, or both return an array with the same
    contents.  The collaborators are those whose answer depends on the
    contents of their arguments only. *)
Theorem get_residual_deterministic h1 h2 d1 x1 y1 d2 x2 y2 data X Y gamma
    (w0 : Z) interp_kind return_background :
  h1 !! d1 = Some (Arr2 data) → h1 !! x1 = Some (Arr1 X) →
  h1 !! y1 = Some (Arr1 Y) →
  h2 !! d2 = Some (Arr2 data) → h2 !! x2 = Some (Arr1 X) →
  h2 !! y2 = Some (Arr1 Y) →
  let run1 :=
    get_residual_st d1 x1 y1 gamma w0 interp_kind return_background h1 in
  let run2 :=
    get_residual_st d2 x2 y2 gamma w0 interp_kind return_background h2 in
  match run1.2, run2.2 with
  | Ok l1, Ok l2 =>
      ∃ out, run1.1 !! l1 = Some (Arr2 out) ∧ run2.1 !! l2 = Some (Arr2 out)
  | Raise e1, Raise e2 => e1 = e2
  | _, _ => False
  end.
Proof.
  intros Hd1 Hx1 Hy1 Hd2 Hx2 Hy2 run1 run2.
  destruct (get_residual_st_yields h1 d1 x1 y1 data X Y gamma w0 interp_kind
              return_background Hd1 Hx1 Hy1) as (h1' & _ & Hrun1).
  destruct (get_residual_st_yields h2 d2 x2 y2 data X Y gamma w0 interp_kind
              return_background Hd2 Hx2 Hy2) as (h2' & _ & Hrun2).
  fold run1 in Hrun1. fold run2 in Hrun2.
  destruct (get_residual data X Y gamma w0 interp_kind return_background)
    as [out|e]; simpl in *.
  - destruct Hrun1 as (l1 & -> & Hl1), Hrun2 as (l2 & -> & Hl2). simpl.
    by exists out.
  - by rewrite Hrun1, Hrun2.
Qed.

(** The collaborators called through references are well behaved: they
    write nothing but their own result. *)
Lemma lifted_interp2d_store h lx ly lz k :
  (lifted_interp2d lx ly lz k h).1 = h.
Proof.
  unfold lifted_interp2d, st_bind, load1, load2, st_lift.
  repeat case_match; by simplify_eq.
Qed.

Lemma allocation_only (m : M F loc) :
  (∀ h, (m h).1 = h ∧ (∀ l, (m h).2 ≠ Ok l) ∨
        ∃ o, m h = (<[fresh (dom h) := o]> h, Ok (fresh (dom h)))) →
  modifies_within ∅ m ∧ returns_within ∅ m.
Proof.
  intros Hm. split.
  - intros h l Hl _. destruct (Hm h) as [[-> _]|[o ->]]; [done|]. simpl.
    apply lookup_insert_ne. intros <-. by apply is_fresh in Hl.
  - intros h l. destruct (Hm h) as [[_ Hno]|[o ->]]; simpl.
    + intros Hl. by apply Hno in Hl.
    + intros [= <-]. right. apply is_fresh.
Qed.

Lemma modifies_within_mono {A} (fp fp' : gset loc) (m : M F A) :
  fp ⊆ fp' → modifies_within fp m → modifies_within fp' m.
Proof. intros Hfp Hm h l Hl Hnot. apply Hm; [done|]. set_solver. Qed.

Lemma returns_within_mono (fp fp' : gset loc) (m : M F loc) :
  fp ⊆ fp' → returns_within fp m → returns_within fp' m.
Proof. intros Hfp Hm h l Hl. destruct (Hm h l Hl); [left|right]; set_solver. Qed.

Lemma lifted_call_alloc (f : interpolant F) lx ly :
  modifies_within ∅ (lifted_call f lx ly) ∧
  returns_within ∅ (lifted_call f lx ly).
Proof.
  apply allocation_only. intros h.
  unfold lifted_call, st_bind, load1, st_lift, new.
  repeat case_match; simplify_eq; simpl; eauto.
Qed.

Lemma lifted_gaussian_alloc l w :
  modifies_within ∅ (lifted_gaussian l w) ∧
  returns_within ∅ (lifted_gaussian l w).
Proof.
  apply allocation_only. intros h.
  unfold lifted_gaussian, st_bind, load2, st_lift, new.
  repeat case_match; simplify_eq; simpl; eauto.
Qed.

Lemma lifted_well_behaved : well_behaved.
Proof.
  split.
  - intros lx ly lz k h l _ _. simpl. by rewrite lifted_interp2d_store.
  - intros lx ly lz k h f _ l Hl. simpl in Hl. set_solver.
  - intros f lx ly. eapply modifies_within_mono, lifted_call_alloc. set_solver.
  - intros f lx ly. eapply returns_within_mono, lifted_call_alloc. set_solver.
  - intros l w. eapply modifies_within_mono, lifted_gaussian_alloc. set_solver.
  - intros l w. eapply returns_within_mono, lifted_gaussian_alloc. set_solver.
Qed.

End Refinement.

(** ** More on the axis arithmetic and on the stages *)

Section MoreResidualFacts.
Context {F : Type} {FL : Float F} {CO : Collaborators F}.
Implicit Types (X Y R : list F) (gamma : F) (data : array2 F).
Implicit Types (interp_kind : string) (return_background : bool).

(** Property X1.  Lines 39-43 succeed exactly on axes of one length or with
    an axis of length 1, whatever the values on the axes and whatever
    [gamma]; [R] and both stretched axes then have the broadcast extent (a
    one-point axis is stretched into an array as long as the other
    axis). *)
Theorem axis_arithmetic_succeeds_iff X Y gamma :
  (length X = length Y ∨ length X = 1%nat ∨ length Y = 1%nat) ↔
  ∃ R x y,
    radial_grid X Y = Ok R ∧
    stretched X R gamma = Ok x ∧ stretched Y R gamma = Ok y ∧
    bdim (length X) (length Y) = Some (length R) ∧
    length x = length R ∧ length y = length R.
Proof.
  split.
  - intros Haxes. destruct (radial_grid X Y) as [R|e] eqn:HR.
    + destruct (stretched_Ok X Y R gamma HR) as [(x & Hx & Hlx) (y & Hy & Hly)].
      exists R, x, y. split_and!; try done. by apply radial_grid_Ok.
    + apply radial_grid_Raise in HR as [_ (? & ? & ?)%bdim_None].
      by destruct Haxes as [|[|]].
  - intros (R & x & y & _ & _ & _ & [[HX|HX] [HY|HY]]%bdim_Some & _);
      auto. left. congruence.
Qed.

Lemma bdim_comm n m : bdim n m = bdim m n.
Proof. unfold bdim. repeat case_decide; congruence. Qed.

Lemma zip_with_comm_op (op : F → F → F) (a b : list F) :
  (∀ u v, op u v = op v u) → zip_with op a b = zip_with op b a.
Proof.
  intros Hop. revert b. induction a as [|u a IH]; intros [|v b]; simpl;
    try done.
  by rewrite Hop, IH.
Qed.

(** Property X5.  The radial grid does not depend on the order of the two
    axes, addition being commutative: [(X**2 + Y**2)**0.5] and
    [(Y**2 + X**2)**0.5] are the same array, and fail together. *)
Theorem radial_grid_symmetric X Y :
  (∀ u v : F, fadd u v = fadd v u) →
  radial_grid X Y = radial_grid Y X.
Proof.
  intros Hadd. unfold radial_grid, np_add, np_binop.
  rewrite (bdim_comm (length (np_power Y two))).
  destruct (bdim _ _) as [n|]; [|done]. simpl.
  by rewrite (zip_with_comm_op fadd _ _ Hadd).
Qed.

(** Property X4.  A sample at radius 1 is not moved by the stretch, whatever
    [gamma] is, since [1 ** gamma = 1] and [a * 1 = a]: the kernel width
    keeps its meaning in grid pixels there. *)
Theorem unit_radius_is_fixed (one : F) X Y R x y gamma i :
  fpow one gamma = one → (∀ a, fmul a one = a) →
  length X = length Y →
  radial_grid X Y = Ok R →
  stretched X R gamma = Ok x → stretched Y R gamma = Ok y →
  R !! i = Some one →
  x !! i = X !! i ∧ y !! i = Y !! i.
Proof.
  intros Hpow Hmul HXY HR Hx Hy Hi.
  assert (length X = length R) as HXR.
  { pose proof (radial_grid_Ok _ _ _ HR) as Hb.
    rewrite HXY, bdim_same in Hb. congruence. }
  rewrite stretched_same_length in Hx by done.
  rewrite stretched_same_length in Hy by congruence.
  injection Hx as <-. injection Hy as <-.
  rewrite !lookup_zip_with, Hi. simpl.
  split.
  - destruct (X !! i) as [xv|]; simpl; [|done]. by rewrite Hpow, Hmul.
  - destruct (Y !! i) as [yv|]; simpl; [|done]. by rewrite Hpow, Hmul.
Qed.

(** Property X6.  When the filter hands back the stretched data unchanged
    (no smoothing), and [a - a = 0] on its entries, the residual is the zero
    array: with the flag unset the call resamples zeros, with the flag set
    it resamples the stretched data themselves. *)
Theorem unfiltered_residual_is_zero (zero : F) data X Y R x y
    stretched_data gamma (w0 : Z) interp_kind :
  radial_grid X Y = Ok R →
  stretched X R gamma = Ok x → stretched Y R gamma = Ok y →
  (func1 ← interp2d X Y data interp_kind; func1 x y) = Ok stretched_data →
  gaussian_filter stretched_data w0 = Ok stretched_data →
  Forall (λ a, fsub a a = zero) (flat stretched_data) →
  get_residual data X Y gamma w0 interp_kind true =
    (func2 ← interp2d x y stretched_data interp_kind; func2 X Y) ∧
  get_residual data X Y gamma w0 interp_kind false =
    (func2 ← interp2d x y
       (Array2 (nrows stretched_data) (ncols stretched_data)
          (replicate (length (flat stretched_data)) zero))
       interp_kind;
     func2 X Y).
Proof.
  intros HR Hx Hy Hsd Hbg Hzero.
  assert (np_subtract stretched_data stretched_data =
    Ok (Array2 (nrows stretched_data) (ncols stretched_data)
          (replicate (length (flat stretched_data)) zero))) as Hhp.
  { unfold np_subtract. rewrite np_binop2_same_shape by done.
    do 2 f_equal. rewrite zip_with_diag. apply const_fmap.
    intros j a Hj. by apply (proj1 (Forall_lookup _ _) Hzero j a). }
  rewrite !get_residual_unfold, HR; simpl. rewrite Hx; simpl.
  rewrite Hy; simpl.
  destruct (interp2d X Y data interp_kind) as [func1|]; simpl in *; [|done].
  rewrite Hsd; simpl. rewrite Hbg; simpl. by rewrite Hhp.
Qed.

End MoreResidualFacts.

(** ** More on the runs on the store *)

Section MoreStoreFacts.
Context {F : Type} {FL : Float F}.
Implicit Types (h : gmap loc (ndarray F)) (l : loc).

(** Property X2.  On axes of different lengths, neither of length 1, the
    call raises [ValueError] without reaching a collaborator: run from one
    store it ends in one and the same store, whatever the collaborators
    are, and that store only has new objects on top of the caller's. *)
Theorem unequal_axes_reach_no_collaborator h d lx ly (o : ndarray F) X Y
    gamma (w0 : Z) interp_kind return_background :
  h !! d = Some o → h !! lx = Some (Arr1 X) → h !! ly = Some (Arr1 Y) →
  length X ≠ length Y → length X ≠ 1%nat → length Y ≠ 1%nat →
  ∃ h', h ⊆ h' ∧
    ∀ SC : StoreCollaborators F,
      get_residual_st (SC := SC) d lx ly gamma w0 interp_kind
        return_background h = (h', Raise ValueError).
Proof.
  intros Hd Hx Hy Hne HX1 HY1.
  destruct (yields_np_copy h d o Hd) as (h1 & Hs1 & l1 & Hr1 & Hl1).
  pose proof (lookup_weaken _ _ _ _ Hx Hs1) as Hx1.
  pose proof (lookup_weaken _ _ _ _ Hy Hs1) as Hy1.
  destruct (yields_np_copy h1 lx _ Hx1) as (h2 & Hs2 & l2 & Hr2 & Hl2).
  pose proof (lookup_weaken _ _ _ _ Hy1 Hs2) as Hy2.
  destruct (yields_np_copy h2 ly _ Hy2) as (h3 & Hs3 & l3 & Hr3 & Hl3).
  pose proof (lookup_weaken _ _ _ _ Hl2 Hs3) as HX3.
  destruct (yields_np_power h3 l2 X two HX3) as (h4 & Hs4 & l4 & Hr4 & Hl4).
  pose proof (lookup_weaken _ _ _ _ Hl3 Hs4) as HY4.
  destruct (yields_np_power h4 l3 Y two HY4) as (h5 & Hs5 & l5 & Hr5 & Hl5).
  pose proof (lookup_weaken _ _ _ _ Hl4 Hs5) as HX5.
  pose proof (yields_np_add h5 l4 l5 _ _ HX5 Hl5) as Hadd.
  unfold np_add in Hadd.
  rewrite np_binop_incompatible in Hadd by by rewrite !length_np_power.
  destruct Hadd as (h6 & Hs6 & Hr6). simpl in Hr6.
  exists h6. split.
  - by repeat (etrans; [eassumption|]).
  - intros SC. unfold get_residual_st.
    rewrite (st_bind_Ok _ _ _ _ _ Hr1), (st_bind_Ok _ _ _ _ _ Hr2),
      (st_bind_Ok _ _ _ _ _ Hr3), (st_bind_Ok _ _ _ _ _ Hr4),
      (st_bind_Ok _ _ _ _ _ Hr5).
    by apply st_bind_Raise.
Qed.

(** Property X3.  With collaborators that read their arguments and allocate
    their result, a call through references does what the filter on values
    does on the contents: it raises the same exception, or returns a
    reference to a new object holding the same array.  Every object of the
    caller's store is still there with its contents, and the two axes may
    be one and the same object. *)
Theorem get_residual_st_refines {CO : Collaborators F} h d lx ly data X Y
    gamma (w0 : Z) interp_kind return_background :
  h !! d = Some (Arr2 data) →
  h !! lx = Some (Arr1 X) → h !! ly = Some (Arr1 Y) →
  ∃ h', h ⊆ h' ∧
    match get_residual data X Y gamma w0 interp_kind return_background with
    | Ok out =>
        ∃ l, get_residual_st (SC := lifted) d lx ly gamma w0 interp_kind
               return_background h = (h', Ok l) ∧
             h' !! l = Some (Arr2 out) ∧ l ∉ dom h
    | Raise e =>
        get_residual_st (SC := lifted) d lx ly gamma w0 interp_kind
          return_background h = (h', Raise e)
    end.
Proof.
  intros Hd Hx Hy.
  destruct (get_residual_st_yields h d lx ly data X Y gamma w0 interp_kind
              return_background Hd Hx Hy) as (h' & Hsub & Hrun).
  exists h'. split; [done|].
  destruct (get_residual data X Y gamma w0 interp_kind return_background)
    as [out|e]; simpl in *; [|done].
  destruct Hrun as (l & Hrun & Hl). exists l. split_and!; [done..|].
  destruct (keeps_get_residual lifted_well_behaved h d lx ly gamma w0
              interp_kind return_background h (untouched_refl h))
    as [_ Hnew].
  apply Hnew. by rewrite Hrun.
Qed.

End MoreStoreFacts.

(** ** The reference instance *)

Section DemoFacts.
Import Demo.

Lemma qpow_zero (r : Q) : fpow r 0%Q = 1%Q.
Proof. reflexivity. Qed.

Lemma qmul_one (a : Q) : fmul a 1%Q = a.
Proof.
  destruct a as [n d]. simpl. unfold Qmult. simpl.
  by rewrite Z.mul_1_r, Pos.mul_1_r.
Qed.

Lemma nearest_interp2d_accepts k ny nx :
  k ∈ kinds → interp2d_accepts k ny nx.
Proof.
  intros Hk xs ys z Hxs Hys Hz. simpl. unfold nearest_interp2d.
  rewrite bool_decide_eq_true_2 by congruence.
  rewrite bool_decide_eq_true_2 by done. simpl.
  eexists. split; [done|]. intros qx qy. by eexists.
Qed.

Lemma five_point_filter_accepts w : gaussian_filter_accepts w.
Proof.
  intros a. simpl. unfold five_point_filter.
  case_decide; eexists; by split.
Qed.

(** The filter that works in place writes its input, and nothing else. *)
Lemma in_place_well_behaved : well_behaved (SC := in_place).
Proof.
  destruct (lifted_well_behaved (CO := scipy_like)) as [H1 H2 H3 H4 _ _].
  split; try done.
  - intros l w h l' Hl' Hne. simpl.
    unfold in_place_filter, st_bind, load2, st_lift, five_point_filter.
    repeat case_match; simplify_eq; simpl; try done;
      apply lookup_insert_ne; set_solver.
  - intros l w h l'. simpl.
    unfold in_place_filter, st_bind, load2, st_lift, five_point_filter.
    repeat case_match; simplify_eq; simpl; try done;
      intros [= <-]; left; set_solver.
Qed.

(** On the three-point axes the nearest-sample interpolant reproduces its
    samples. *)
Lemma nearest_interp2d_exact k : k ∈ kinds → interp2d_exact_on xs3 ys3 k.
Proof.
  intros Hk [r c fl] [[= -> ->] Hlen]. simpl in *. unfold nearest_interp2d.
  rewrite bool_decide_eq_true_2 by done.
  rewrite bool_decide_eq_true_2 by done. simpl.
  eexists. split; [done|].
  do 10 (destruct fl as [|? fl]; try done).
Qed.

Lemma five_point_filter_keeps_grid (X Y : list Q) w :
  gaussian_filter_keeps_grid X Y w.
Proof.
  intros a b [Hshape Hlen]. simpl. unfold five_point_filter.
  case_decide; intros [= <-]; [done|]. split; [done|].
  injection Hshape as Hr Hc. simpl.
  by rewrite length_fmap, length_seq, Hr, Hc.
Qed.

End DemoFacts.

(** ** The claims on concrete calls *)

Import Demo.

(** The impulse through the filter, with [gamma = 1] and [w0 = 1]: the
    smooth part and the residual. *)
Example impulse_background :
  get_residual impulse xs3 ys3 1%Q 1 "linear" true
    = Ok (Array2 3 3 (replicate 9 (1 # 2)%Q)).
Proof. by vm_compute. Qed.

Example impulse_unstretched :
  get_residual impulse xs3 ys3 0%Q 1 "linear" false
    = Ok (Array2 3 3 [0; -1 # 8; 0; -1 # 8; 1 # 2; -1 # 8; 0; -1 # 8; 0]%Q).
Proof. by vm_compute. Qed.

(** A single-point x-axis is broadcast against the y-axis. *)
Example broadcast_axis :
  radial_grid [0%Q] ys3 = Ok [4; 0; 4]%Q ∧
  stretched [0%Q] [4; 0; 4]%Q 0%Q = Ok [0; 0; 0]%Q.
Proof. by split. Qed.

(** On the store, a Gaussian filter that works in place makes [background]
    an alias of [stretched_data]: the residual is zero; called with
    collaborators that allocate their result, the same call gives the
    residual of the value semantics.  In both runs the caller's three
    arrays are where they were. *)
Example in_place_filter_aliases :
  let run :=
    get_residual_st (SC := in_place) 1%positive 2%positive 3%positive
      0%Q 1 "linear" false caller_store in
  let run' :=
    get_residual_st (SC := lifted) 1%positive 2%positive 3%positive
      0%Q 1 "linear" false caller_store in
  (∃ l, run.2 = Ok l ∧
        run.1 !! l = Some (Arr2 (Array2 3 3 (replicate 9 0%Q)))) ∧
  (∃ l, run'.2 = Ok l ∧
        run'.1 !! l = Some (Arr2 (Array2 3 3
          [0; -1 # 8; 0; -1 # 8; 1 # 2; -1 # 8; 0; -1 # 8; 0]%Q))) ∧
  run.1 !! 1%positive = Some (Arr2 impulse) ∧
  run'.1 !! 1%positive = Some (Arr2 impulse).
Proof.
  split_and!; [eexists; split; by vm_compute ..| |]; by vm_compute.
Qed.

(** On the axes [-3, 0, 3] and [-4, 0, 4] the code's radial grid is the 1-D
    array [5, 0, 5] of shape [(3,)] and the stretched axes (for
    [gamma = 1]) are 1-D as well, while the map has shape [(3, 3)] and the
    grid the specification describes has the nine entries
    [5, 4, 5, 3, 0, 3, 5, 4, 5]. *)
Lemma radial_grid_is_not_the_full_grid :
  radial_grid xs3 ys3 = Ok [5; 0; 5]%Q ∧
  stretched xs3 [5; 0; 5]%Q 1%Q = Ok [-15; 0; 15]%Q ∧
  stretched ys3 [5; 0; 5]%Q 1%Q = Ok [-20; 0; 20]%Q ∧
  np_shape (Arr1 [5; 0; 5]%Q) = [3%nat] ∧
  np_shape (Arr2 impulse) = [3%nat; 3%nat] ∧
  np_shape (Arr1 [5; 0; 5]%Q) ≠ np_shape (Arr2 impulse) ∧
  spec_radial_grid xs3 ys3 = Array2 3 3 [5; 4; 5; 3; 0; 3; 5; 4; 5]%Q.
Proof. by split_and!. Qed.

Lemma radial_grid_elementwise_witness :
  length xs3 = length ys3 ∧
  ∃ R x y,
    radial_grid xs3 ys3 = Ok R ∧ stretched xs3 R 1%Q = Ok x ∧
    stretched ys3 R 1%Q = Ok y ∧
    R = zip_with radius xs3 ys3 ∧
    x = zip_with (λ xv r, fmul xv (fpow r 1%Q)) xs3 R ∧
    y = zip_with (λ yv r, fmul yv (fpow r 1%Q)) ys3 R ∧
    np_shape (Arr1 R) = [length xs3] ∧
    np_shape (Arr1 x) = [length xs3] ∧
    np_shape (Arr1 y) = [length xs3] ∧
    ∀ i, (i < length xs3)%nat →
      R !! i = flat (spec_radial_grid xs3 ys3) !! (i * length xs3 + i)%nat.
Proof.
  split; [reflexivity|].
  apply (radial_grid_elementwise xs3 ys3 1%Q). reflexivity.
Defined.

(** A kernel width of 0 and a negative one are not rejected; an unknown
    interpolation kind and a map of the wrong shape surface as the
    [ValueError] of the interpolant builder. *)
Lemma nonpositive_width_is_not_rejected :
  get_residual impulse xs3 ys3 0%Q 0 "linear" true
    = Ok (Array2 3 3 [0; 0; 0; 0; 1; 0; 0; 0; 0]%Q) ∧
  get_residual impulse xs3 ys3 1%Q (-2) "linear" false
    = Ok (Array2 3 3 [0; 0; 0; 0; 0; 0; 0; 0; 0]%Q) ∧
  get_residual impulse xs3 ys3 1%Q 1 "nearest" true
    = Raise (Exception "ValueError") ∧
  get_residual (Array2 2 2 [1; 2; 3; 4]%Q) xs3 ys3 1%Q 1 "linear" true
    = Raise (Exception "ValueError").
Proof. split_and!; by vm_compute. Qed.

Lemma gamma_zero_no_stretch_witness :
  (∀ r : Q, fpow r 0%Q = 1%Q) ∧ (∀ a : Q, fmul a 1%Q = a) ∧
  radial_grid xs3 ys3 = Ok [5; 0; 5]%Q ∧
  length xs3 = length ys3 ∧
  on_grid xs3 ys3 impulse ∧
  interp2d_exact_on xs3 ys3 "linear" ∧
  gaussian_filter_keeps_grid xs3 ys3 1 ∧
  stretched xs3 [5; 0; 5]%Q 0%Q = Ok xs3 ∧
  stretched ys3 [5; 0; 5]%Q 0%Q = Ok ys3 ∧
  get_residual impulse xs3 ys3 0%Q 1 "linear" false =
    spec_fixed_width_highpass impulse 1 false.
Proof.
  assert (on_grid xs3 ys3 impulse) as Hgrid by (by split).
  assert (interp2d_exact_on xs3 ys3 "linear") as Hexact.
  { apply nearest_interp2d_exact. unfold kinds. apply list_elem_of_here. }
  split; [exact qpow_zero|]. split; [exact qmul_one|].
  split; [reflexivity|]. split; [reflexivity|]. split; [exact Hgrid|].
  split; [exact Hexact|].
  split; [exact (five_point_filter_keeps_grid xs3 ys3 1)|].
  destruct (gamma_zero_no_stretch 0%Q 1%Q impulse xs3 ys3 [5; 0; 5]%Q 1
              "linear" false qpow_zero qmul_one eq_refl)
    as (_ & _ & Hsame & Hplain).
  destruct (Hsame eq_refl) as [Hx Hy].
  split; [exact Hx|]. split; [exact Hy|].
  exact (Hplain eq_refl Hgrid Hexact (five_point_filter_keeps_grid xs3 ys3 1)).
Defined.

(** The plain filter on the impulse: the five-point smoothing of the map
    and the map minus it. *)
Example impulse_plain_highpass :
  spec_fixed_width_highpass impulse 1 true
    = Ok (Array2 3 3 [0; 1 # 8; 0; 1 # 8; 1 # 2; 1 # 8; 0; 1 # 8; 0]%Q) ∧
  spec_fixed_width_highpass impulse 1 false
    = Ok (Array2 3 3 [0; -1 # 8; 0; -1 # 8; 1 # 2; -1 # 8; 0; -1 # 8; 0]%Q).
Proof. split; by vm_compute. Qed.

(** A 3 x 2 map on a 2-point x-axis and a 3-point y-axis is a valid input,
    and the collaborators accept the kind and the width; the call raises
    [ValueError] and returns no array. *)
Lemma unequal_axes_return_nothing :
  shape map32 = (length ys3, length xs2) ∧
  interp2d_accepts "linear" 3 2 ∧ gaussian_filter_accepts 1 ∧
  get_residual map32 xs2 ys3 1%Q 1 "linear" true
    = Raise (Exception "ValueError").
Proof.
  split_and!; [done| |apply five_point_filter_accepts|done].
  apply nearest_interp2d_accepts. unfold kinds. apply list_elem_of_here.
Qed.

Lemma get_residual_shape_witness :
  bdim (length xs3) (length ys3) = Some 3%nat ∧
  interp2d_accepts "linear" (length ys3) (length xs3) ∧
  interp2d_accepts "linear" 3 3 ∧
  gaussian_filter_accepts 1 ∧
  shape impulse = (length ys3, length xs3) ∧
  ∃ out,
    get_residual impulse xs3 ys3 1%Q 1 "linear" true = Ok out ∧
    shape out = shape impulse.
Proof.
  assert (interp2d_accepts "linear" 3 3) as Hinterp.
  { apply nearest_interp2d_accepts. unfold kinds.
    apply list_elem_of_here. }
  split; [reflexivity|].
  split; [exact Hinterp|]. split; [exact Hinterp|].
  split; [apply five_point_filter_accepts|].
  split; [reflexivity|].
  exact (get_residual_shape impulse xs3 ys3 1%Q 1 "linear" true 3
           eq_refl Hinterp Hinterp (five_point_filter_accepts 1) eq_refl).
Defined.

Lemma get_residual_unequal_axes_witness :
  length xs2 ≠ length ys3 ∧ length xs2 ≠ 1%nat ∧ length ys3 ≠ 1%nat ∧
  radial_grid xs2 ys3 = Raise ValueError ∧
  get_residual map32 xs2 ys3 1%Q 1 "linear" true = Raise ValueError.
Proof.
  assert (length xs2 ≠ length ys3) as H1 by (simpl; lia).
  assert (length xs2 ≠ 1%nat) as H2 by (simpl; lia).
  assert (length ys3 ≠ 1%nat) as H3 by (simpl; lia).
  split; [exact H1|]. split; [exact H2|]. split; [exact H3|].
  exact (get_residual_unequal_axes map32 xs2 ys3 1%Q 1 "linear" true
           H1 H2 H3).
Defined.

Lemma get_residual_leaves_inputs_witness :
  well_behaved (SC := in_place) ∧
  1%positive ∈ dom caller_store ∧ 2%positive ∈ dom caller_store ∧
  3%positive ∈ dom caller_store ∧
  let run :=
    get_residual_st (SC := in_place) 1%positive 2%positive 3%positive
      1%Q 1 "linear" true caller_store in
  run.1 !! 1%positive = caller_store !! 1%positive ∧
  run.1 !! 2%positive = caller_store !! 2%positive ∧
  run.1 !! 3%positive = caller_store !! 3%positive ∧
  (∀ l, l ∈ dom caller_store → run.1 !! l = caller_store !! l) ∧
  (∀ out, run.2 = Ok out → out ∉ dom caller_store).
Proof.
  assert (∀ l o, caller_store !! l = Some o → l ∈ dom caller_store) as Hdom.
  { intros l o Hl. apply elem_of_dom. by exists o. }
  assert (1%positive ∈ dom caller_store) as H1 by by eapply Hdom.
  assert (2%positive ∈ dom caller_store) as H2 by by eapply Hdom.
  assert (3%positive ∈ dom caller_store) as H3 by by eapply Hdom.
  split; [exact in_place_well_behaved|].
  split; [exact H1|]. split; [exact H2|]. split; [exact H3|].
  exact (get_residual_leaves_inputs in_place_well_behaved caller_store
           1%positive 2%positive 3%positive 1%Q 1 "linear" true H1 H2 H3).
Defined.

Lemma get_residual_deterministic_witness :
  caller_store !! 1%positive = Some (Arr2 impulse) ∧
  caller_store !! 2%positive = Some (Arr1 xs3) ∧
  caller_store !! 3%positive = Some (Arr1 ys3) ∧
  other_store !! 7%positive = Some (Arr2 impulse) ∧
  other_store !! 5%positive = Some (Arr1 xs3) ∧
  other_store !! 9%positive = Some (Arr1 ys3) ∧
  let run1 :=
    get_residual_st (SC := lifted) 1%positive 2%positive 3%positive
      1%Q 1 "linear" false caller_store in
  let run2 :=
    get_residual_st (SC := lifted) 7%positive 5%positive 9%positive
      1%Q 1 "linear" false other_store in
  match run1.2, run2.2 with
  | Ok l1, Ok l2 =>
      ∃ out, run1.1 !! l1 = Some (Arr2 out) ∧ run2.1 !! l2 = Some (Arr2 out)
  | Raise e1, Raise e2 => e1 = e2
  | _, _ => False
  end.
Proof.
  split; [reflexivity|]. split; [reflexivity|]. split; [reflexivity|].
  split; [reflexivity|]. split; [reflexivity|]. split; [reflexivity|].
  exact (get_residual_deterministic caller_store other_store
           1%positive 2%positive 3%positive 7%positive 5%positive 9%positive
           impulse xs3 ys3 1%Q 1 "linear" false
           eq_refl eq_refl eq_refl eq_refl eq_refl eq_refl).
Defined.

(** ** The further properties on concrete calls *)

Lemma qadd_comm (u v : Q) : fadd u v = fadd v u.
Proof. simpl. apply Qred_complete, Qplus_comm. Qed.

Lemma nearest_interp2d_answers_in_query_shape k :
  ∀ xs ys z (f : interpolant Q) qx qy r,
    interp2d xs ys z k = Ok f → f qx qy = Ok r →
    shape r = (length qy, length qx).
Proof.
  intros xs ys z f qx qy r. simpl. unfold nearest_interp2d.
  repeat case_match; try done. intros [= <-] [= <-]. done.
Qed.

Lemma unequal_axes_reach_no_collaborator_witness :
  narrow_store !! 1%positive = Some (Arr2 map32) ∧
  narrow_store !! 2%positive = Some (Arr1 xs2) ∧
  narrow_store !! 3%positive = Some (Arr1 ys3) ∧
  length xs2 ≠ length ys3 ∧ length xs2 ≠ 1%nat ∧ length ys3 ≠ 1%nat ∧
  ∃ h', narrow_store ⊆ h' ∧
    ∀ SC : StoreCollaborators Q,
      get_residual_st (SC := SC) 1%positive 2%positive 3%positive
        1%Q 1 "linear" true narrow_store = (h', Raise ValueError).
Proof.
  assert (length xs2 ≠ length ys3) as H1 by (simpl; lia).
  assert (length xs2 ≠ 1%nat) as H2 by (simpl; lia).
  assert (length ys3 ≠ 1%nat) as H3 by (simpl; lia).
  split; [reflexivity|]. split; [reflexivity|]. split; [reflexivity|].
  split; [exact H1|]. split; [exact H2|]. split; [exact H3|].
  exact (unequal_axes_reach_no_collaborator narrow_store
           1%positive 2%positive 3%positive (Arr2 map32) xs2 ys3
           1%Q 1 "linear" true eq_refl eq_refl eq_refl H1 H2 H3).
Defined.

Lemma get_residual_st_refines_witness :
  caller_store !! 1%positive = Some (Arr2 impulse) ∧
  caller_store !! 2%positive = Some (Arr1 xs3) ∧
  caller_store !! 3%positive = Some (Arr1 ys3) ∧
  ∃ h', caller_store ⊆ h' ∧
    match get_residual impulse xs3 ys3 1%Q 1 "linear" false with
    | Ok out =>
        ∃ l, get_residual_st (SC := lifted) 1%positive 2%positive 3%positive
               1%Q 1 "linear" false caller_store = (h', Ok l) ∧
             h' !! l = Some (Arr2 out) ∧ l ∉ dom caller_store
    | Raise e =>
        get_residual_st (SC := lifted) 1%positive 2%positive 3%positive
          1%Q 1 "linear" false caller_store = (h', Raise e)
    end.
Proof.
  split; [reflexivity|]. split; [reflexivity|]. split; [reflexivity|].
  exact (get_residual_st_refines caller_store 1%positive 2%positive
           3%positive impulse xs3 ys3 1%Q 1 "linear" false
           eq_refl eq_refl eq_refl).
Defined.

Lemma unit_radius_is_fixed_witness :
  fpow 1%Q 2%Q = 1%Q ∧ (∀ a : Q, fmul a 1%Q = a) ∧
  length xs_unit = length ys_unit ∧
  radial_grid xs_unit ys_unit = Ok [1; 1; 5]%Q ∧
  stretched xs_unit [1; 1; 5]%Q 2%Q = Ok [0; 1; 75]%Q ∧
  stretched ys_unit [1; 1; 5]%Q 2%Q = Ok [1; 0; 100]%Q ∧
  [1; 1; 5]%Q !! 1%nat = Some 1%Q ∧
  [0; 1; 75]%Q !! 1%nat = xs_unit !! 1%nat ∧
  [1; 0; 100]%Q !! 1%nat = ys_unit !! 1%nat.
Proof.
  split; [reflexivity|]. split; [exact qmul_one|].
  split; [reflexivity|]. split; [reflexivity|].
  split; [reflexivity|]. split; [reflexivity|]. split; [reflexivity|].
  exact (unit_radius_is_fixed 1%Q xs_unit ys_unit [1; 1; 5]%Q
           [0; 1; 75]%Q [1; 0; 100]%Q 2%Q 1%nat
           eq_refl qmul_one eq_refl eq_refl eq_refl eq_refl eq_refl).
Defined.

Lemma radial_grid_symmetric_witness :
  (∀ u v : Q, fadd u v = fadd v u) ∧
  radial_grid xs3 ys3 = radial_grid ys3 xs3.
Proof.
  split; [exact qadd_comm|].
  exact (radial_grid_symmetric xs3 ys3 qadd_comm).
Defined.

Lemma unfiltered_residual_is_zero_witness :
  radial_grid xs3 ys3 = Ok [5; 0; 5]%Q ∧
  stretched xs3 [5; 0; 5]%Q 1%Q = Ok [-15; 0; 15]%Q ∧
  stretched ys3 [5; 0; 5]%Q 1%Q = Ok [-20; 0; 20]%Q ∧
  (func1 ← interp2d xs3 ys3 impulse "linear";
   func1 [-15; 0; 15]%Q [-20; 0; 20]%Q) = Ok impulse ∧
  gaussian_filter impulse 0 = Ok impulse ∧
  Forall (λ a : Q, fsub a a = 0%Q) (flat impulse) ∧
  get_residual impulse xs3 ys3 1%Q 0 "linear" true =
    (func2 ← interp2d [-15; 0; 15]%Q [-20; 0; 20]%Q impulse "linear";
     func2 xs3 ys3) ∧
  get_residual impulse xs3 ys3 1%Q 0 "linear" false =
    (func2 ← interp2d [-15; 0; 15]%Q [-20; 0; 20]%Q
       (Array2 (nrows impulse) (ncols impulse)
          (replicate (length (flat impulse)) 0%Q))
       "linear";
     func2 xs3 ys3).
Proof.
  assert (Forall (λ a : Q, fsub a a = 0%Q) (flat impulse)) as Hzero.
  { repeat constructor. }
  split; [reflexivity|]. split; [reflexivity|]. split; [reflexivity|].
  split; [reflexivity|]. split; [reflexivity|]. split; [exact Hzero|].
  exact (unfiltered_residual_is_zero 0%Q impulse xs3 ys3 [5; 0; 5]%Q
           [-15; 0; 15]%Q [-20; 0; 20]%Q impulse 1%Q 0 "linear"
           eq_refl eq_refl eq_refl eq_refl eq_refl Hzero).
Defined.

Lemma get_residual_shape_of_result_witness :
  (∀ xs ys z (f : interpolant Q) qx qy r,
     interp2d xs ys z "linear" = Ok f → f qx qy = Ok r →
     shape r = (length qy, length qx)) ∧
  get_residual impulse xs3 ys3 1%Q 1 "linear" true
    = Ok (Array2 3 3 (replicate 9 (1 # 2)%Q)) ∧
  shape (Array2 3 3 (replicate 9 (1 # 2)%Q)) = (length ys3, length xs3).
Proof.
  assert (get_residual impulse xs3 ys3 1%Q 1 "linear" true
            = Ok (Array2 3 3 (replicate 9 (1 # 2)%Q))) as Hrun
    by (vm_compute; reflexivity).
  split; [exact (nearest_interp2d_answers_in_query_shape "linear")|].
  split; [exact Hrun|].
  exact (get_residual_shape_of_result impulse xs3 ys3 1%Q 1 "linear" true
           (Array2 3 3 (replicate 9 (1 # 2)%Q))
           (nearest_interp2d_answers_in_query_shape "linear") Hrun).
Defined.
